(** * PLVS volumetric map store: [include/PointCloudMap.h]

    A shallow embedding of the class template [PLVS::PointCloudMap<PointT>]
    and of the part of its environment the header relies on: the PCL point
    cloud container reached through shared pointers, and the
    [std::recursive_timed_mutex] guarding the two stored clouds.

    Shared pointers are locations of a heap of clouds ([gmap loc cloud]); the
    null pointer is [None].  Member functions are state transformers over a
    pair of the heap and the object, returning an [outcome]: a normal return,
    a call blocked for ever on the mutex, or undefined behaviour (a
    dereference of a null or dangling pointer). *)

From Stdlib Require Import ZArith NArith Sorted.
From stdpp Require Import base tactics option numbers list strings gmap fin_maps relations.

Local Open Scope Z_scope.

(** ** Scalars *)

(** [float] and [double] values are only stored and handed back by this
    header, never computed with: they are kept as their IEEE-754 bit
    patterns. *)
Definition float := N.
Definition double := N.

(** [std::chrono::milliseconds]: a signed 64-bit tick count. *)
Definition milliseconds := Z.

(** Shared-pointer targets. *)
Definition loc := positive.

(** ** [std::recursive_timed_mutex] *)

Module Mutex.

Definition thread_id := nat.

(** [LockedBy t n]: thread [t] owns the mutex and has re-entered it [n]
    more times after its first acquisition. *)
Inductive recursive_timed_mutex : Type :=
| Unlocked
| LockedBy (owner : thread_id) (reentered : nat).

(** What the calling thread sees from the rest of the process while it
    waits: who it is, after how many milliseconds a foreign owner gives the
    mutex up ([None]: not at all), and what the clock behind the timed wait
    reads, in nanoseconds, when the wait begins. *)
Record scheduler : Type := {
  self : thread_id;
  release_after : option N;
  clock_now : Z
}.

(** Signed 64-bit arithmetic, as the clock's nanosecond counts have it. *)
Definition wrap64 (z : Z) : Z := (z + 2 ^ 63) mod 2 ^ 64 - 2 ^ 63.

(** The instant [try_lock_for] waits until: the timeout is converted to
    nanoseconds and added to the reading of the clock, both in 64 bits.
    A timeout too long for that arithmetic wraps around, in general to an
    instant already past. *)
Definition deadline (sch : scheduler) (timeout : milliseconds) : Z :=
  wrap64 (clock_now sch + wrap64 (timeout * 1000000)).

(** The deadline of [timeout] is computed without wrapping around. *)
Definition representable (sch : scheduler) (timeout : milliseconds) : bool :=
  (- 2 ^ 63 <=? timeout * 1000000) && (timeout * 1000000 <? 2 ^ 63) &&
  (- 2 ^ 63 <=? clock_now sch + timeout * 1000000) &&
  (clock_now sch + timeout * 1000000 <? 2 ^ 63).

(** Blocking [lock()]; [None] when the wait never ends. *)
Definition lock (sch : scheduler) (m : recursive_timed_mutex)
  : option recursive_timed_mutex :=
  match m with
  | Unlocked => Some (LockedBy (self sch) 0)
  | LockedBy o n =>
      if decide (o = self sch) then Some (LockedBy o (S n))
      else match release_after sch with
           | Some _ => Some (LockedBy (self sch) 0)
           | None => None
           end
  end.

(** [try_lock_for(timeout)]; [None] is [owns_lock() == false].  A mutex
    that is free or already ours is taken at once; otherwise the wait ends
    with the mutex when its owner lets go no later than the deadline. *)
Definition try_lock_for (sch : scheduler) (timeout : milliseconds)
    (m : recursive_timed_mutex) : option recursive_timed_mutex :=
  match m with
  | Unlocked => Some (LockedBy (self sch) 0)
  | LockedBy o n =>
      if decide (o = self sch) then Some (LockedBy o (S n))
      else match release_after sch with
           | Some d =>
               if decide (clock_now sch + Z.of_N d * 1000000 ≤ deadline sch timeout)
               then Some (LockedBy (self sch) 0)
               else None
           | None => None
           end
  end.

(** [unlock()], run by the destructor of an owning [std::unique_lock]. *)
Definition unlock (m : recursive_timed_mutex) : recursive_timed_mutex :=
  match m with
  | LockedBy o (S n) => LockedBy o n
  | LockedBy _ O | Unlocked => Unlocked
  end.

End Mutex.
Import Mutex.

(** ** [CameraModelParams] *)

Record CameraModelParams : Type := {
  fx : double;
  fy : double;
  cx : double;
  cy : double;
  cam_width : Z;
  cam_height : Z;
  minDist : double;
  maxDist : double
}.

(** ** PCL containers *)

Record PCLHeader : Type := {
  seq : N;
  stamp : N;
  frame_id : string
}.

Section PointCloudMap.

(** The template parameter of [PointCloudMap]. *)
Variable PointT : Type.

(** [pcl::PointCloud<PointT>]. *)
Record PointCloudT : Type := {
  header : PCLHeader;
  points : list PointT;
  width : N;
  height : N;
  is_dense : bool
}.

(** [PointCloudT::Ptr]: null, or the location of a cloud. *)
Definition Ptr := option loc.

(** The data members of [PointCloudMap], in declaration order. *)
Record PointCloudMap : Type := {
  resolution_ : double;
  bResetOnSparseMapChange_ : bool;
  bCloudDeformationOnSparseMapChange_ : bool;
  pointCloudMutex_ : recursive_timed_mutex;
  pPointCloud_ : Ptr;
  pPointCloudUnstable_ : Ptr;
  lastTimestamp_ : N;
  nDownsampleStep_ : Z;
  bMapUpdated_ : bool;
  bRemoveUnstablePoints_ : bool;
  bPerformSegmentation_ : bool;
  bPerformCarving_ : bool;
  minCosForNormalAssociation_ : float
}.

(** The clouds in memory and the map object. *)
Record state : Type := {
  heap : gmap loc PointCloudT;
  this : PointCloudMap
}.

Inductive outcome (A : Type) : Type :=
| Returns (a : A) (σ : state)
| Blocks
| Undefined.

(** *** Field updates *)

Definition with_mutex (m : recursive_timed_mutex) (t : PointCloudMap) :=
  {| resolution_ := resolution_ t;
     bResetOnSparseMapChange_ := bResetOnSparseMapChange_ t;
     bCloudDeformationOnSparseMapChange_ := bCloudDeformationOnSparseMapChange_ t;
     pointCloudMutex_ := m;
     pPointCloud_ := pPointCloud_ t;
     pPointCloudUnstable_ := pPointCloudUnstable_ t;
     lastTimestamp_ := lastTimestamp_ t;
     nDownsampleStep_ := nDownsampleStep_ t;
     bMapUpdated_ := bMapUpdated_ t;
     bRemoveUnstablePoints_ := bRemoveUnstablePoints_ t;
     bPerformSegmentation_ := bPerformSegmentation_ t;
     bPerformCarving_ := bPerformCarving_ t;
     minCosForNormalAssociation_ := minCosForNormalAssociation_ t |}.

Definition with_lastTimestamp (ts : N) (t : PointCloudMap) :=
  {| resolution_ := resolution_ t;
     bResetOnSparseMapChange_ := bResetOnSparseMapChange_ t;
     bCloudDeformationOnSparseMapChange_ := bCloudDeformationOnSparseMapChange_ t;
     pointCloudMutex_ := pointCloudMutex_ t;
     pPointCloud_ := pPointCloud_ t;
     pPointCloudUnstable_ := pPointCloudUnstable_ t;
     lastTimestamp_ := ts;
     nDownsampleStep_ := nDownsampleStep_ t;
     bMapUpdated_ := bMapUpdated_ t;
     bRemoveUnstablePoints_ := bRemoveUnstablePoints_ t;
     bPerformSegmentation_ := bPerformSegmentation_ t;
     bPerformCarving_ := bPerformCarving_ t;
     minCosForNormalAssociation_ := minCosForNormalAssociation_ t |}.

Definition with_pPointCloud (p : Ptr) (t : PointCloudMap) :=
  {| resolution_ := resolution_ t;
     bResetOnSparseMapChange_ := bResetOnSparseMapChange_ t;
     bCloudDeformationOnSparseMapChange_ := bCloudDeformationOnSparseMapChange_ t;
     pointCloudMutex_ := pointCloudMutex_ t;
     pPointCloud_ := p;
     pPointCloudUnstable_ := pPointCloudUnstable_ t;
     lastTimestamp_ := lastTimestamp_ t;
     nDownsampleStep_ := nDownsampleStep_ t;
     bMapUpdated_ := bMapUpdated_ t;
     bRemoveUnstablePoints_ := bRemoveUnstablePoints_ t;
     bPerformSegmentation_ := bPerformSegmentation_ t;
     bPerformCarving_ := bPerformCarving_ t;
     minCosForNormalAssociation_ := minCosForNormalAssociation_ t |}.

Definition with_pPointCloudUnstable (p : Ptr) (t : PointCloudMap) :=
  {| resolution_ := resolution_ t;
     bResetOnSparseMapChange_ := bResetOnSparseMapChange_ t;
     bCloudDeformationOnSparseMapChange_ := bCloudDeformationOnSparseMapChange_ t;
     pointCloudMutex_ := pointCloudMutex_ t;
     pPointCloud_ := pPointCloud_ t;
     pPointCloudUnstable_ := p;
     lastTimestamp_ := lastTimestamp_ t;
     nDownsampleStep_ := nDownsampleStep_ t;
     bMapUpdated_ := bMapUpdated_ t;
     bRemoveUnstablePoints_ := bRemoveUnstablePoints_ t;
     bPerformSegmentation_ := bPerformSegmentation_ t;
     bPerformCarving_ := bPerformCarving_ t;
     minCosForNormalAssociation_ := minCosForNormalAssociation_ t |}.

(** *** [pcl::PointCloud::makeShared] and the guarded copy *)

(** [makeShared]: a new cloud, copy-constructed from the one at [l], owned
    by a new shared pointer.  [None] when [l] holds no cloud. *)
Definition makeShared (h : gmap loc PointCloudT) (l : loc)
  : option (gmap loc PointCloudT * loc) :=
  match h !! l with
  | Some c => let l' := fresh (dom h) in Some (<[l' := c]> h, l')
  | None => None
  end.

(** [p ? p->makeShared() : 0]. *)
Definition copy_or_null (h : gmap loc PointCloudT) (p : Ptr)
  : option (gmap loc PointCloudT * Ptr) :=
  match p with
  | None => Some (h, None)
  | Some l =>
      match makeShared h l with
      | Some (h', l') => Some (h', Some l')
      | None => None
      end
  end.

(** The state a member function leaves when the [unique_lock] it took as
    [m'] goes out of scope with heap [h]. *)
Definition leave (h : gmap loc PointCloudT) (m' : recursive_timed_mutex)
    (σ : state) : state :=
  {| heap := h; this := with_mutex (unlock m') (this σ) |}.

(** *** Getters *)

Definition GetMap (sch : scheduler) (σ : state) : outcome Ptr :=
  match lock sch (pointCloudMutex_ (this σ)) with
  | None => Blocks _
  | Some lck =>
      match copy_or_null (heap σ) (pPointCloud_ (this σ)) with
      | Some (h, p) => Returns _ p (leave h lck σ)
      | None => Undefined _
      end
  end.

Definition GetMapWithTimeout (sch : scheduler) (timeout : milliseconds)
    (σ : state) : outcome Ptr :=
  match try_lock_for sch timeout (pointCloudMutex_ (this σ)) with
  | Some lck =>
      match copy_or_null (heap σ) (pPointCloud_ (this σ)) with
      | Some (h, p) => Returns _ p (leave h lck σ)
      | None => Undefined _
      end
  | None => Returns _ None σ
  end.

(** The reference parameters of the three-output overload, as they stand
    when the call returns, for a caller that passes a variable of its own
    for each; [GetMapWithTimeout3_refs] below has the references
    themselves. *)
Record map_outputs : Type := {
  pCloud : Ptr;
  pCloudUnstable : Ptr;
  faces : list N
}.

Definition GetMapWithTimeout3 (sch : scheduler) (args : map_outputs)
    (timeout : milliseconds) (copyUnstable : bool) (σ : state)
  : outcome map_outputs :=
  match try_lock_for sch timeout (pointCloudMutex_ (this σ)) with
  | Some lck =>
      match copy_or_null (heap σ) (pPointCloud_ (this σ)) with
      | Some (h1, pc) =>
          if copyUnstable then
            match copy_or_null h1 (pPointCloudUnstable_ (this σ)) with
            | Some (h2, pu) =>
                Returns _ {| pCloud := pc; pCloudUnstable := pu; faces := [] |}
                        (leave h2 lck σ)
            | None => Undefined _
            end
          else
            Returns _ {| pCloud := pc; pCloudUnstable := pCloudUnstable args;
                         faces := [] |}
                    (leave h1 lck σ)
      | None => Undefined _
      end
  | None =>
      Returns _ {| pCloud := None; pCloudUnstable := None; faces := [] |} σ
  end.

Definition GetMapTimestamp (sch : scheduler) (σ : state) : outcome N :=
  match lock sch (pointCloudMutex_ (this σ)) with
  | None => Blocks _
  | Some lck =>
      match pPointCloud_ (this σ) with
      | None => Undefined _
      | Some l =>
          match heap σ !! l with
          | Some c => Returns _ (stamp (header c)) (leave (heap σ) lck σ)
          | None => Undefined _
          end
      end
  end.

(** *** Setters *)

Definition SetRemoveUnstablePoints (val : bool) (t : PointCloudMap) :=
  {| resolution_ := resolution_ t;
     bResetOnSparseMapChange_ := bResetOnSparseMapChange_ t;
     bCloudDeformationOnSparseMapChange_ := bCloudDeformationOnSparseMapChange_ t;
     pointCloudMutex_ := pointCloudMutex_ t;
     pPointCloud_ := pPointCloud_ t;
     pPointCloudUnstable_ := pPointCloudUnstable_ t;
     lastTimestamp_ := lastTimestamp_ t;
     nDownsampleStep_ := nDownsampleStep_ t;
     bMapUpdated_ := bMapUpdated_ t;
     bRemoveUnstablePoints_ := val;
     bPerformSegmentation_ := bPerformSegmentation_ t;
     bPerformCarving_ := bPerformCarving_ t;
     minCosForNormalAssociation_ := minCosForNormalAssociation_ t |}.

Definition SetPerformSegmentation (val : bool) (t : PointCloudMap) :=
  {| resolution_ := resolution_ t;
     bResetOnSparseMapChange_ := bResetOnSparseMapChange_ t;
     bCloudDeformationOnSparseMapChange_ := bCloudDeformationOnSparseMapChange_ t;
     pointCloudMutex_ := pointCloudMutex_ t;
     pPointCloud_ := pPointCloud_ t;
     pPointCloudUnstable_ := pPointCloudUnstable_ t;
     lastTimestamp_ := lastTimestamp_ t;
     nDownsampleStep_ := nDownsampleStep_ t;
     bMapUpdated_ := bMapUpdated_ t;
     bRemoveUnstablePoints_ := bRemoveUnstablePoints_ t;
     bPerformSegmentation_ := val;
     bPerformCarving_ := bPerformCarving_ t;
     minCosForNormalAssociation_ := minCosForNormalAssociation_ t |}.

Definition SetPerformCarving (val : bool) (t : PointCloudMap) :=
  {| resolution_ := resolution_ t;
     bResetOnSparseMapChange_ := bResetOnSparseMapChange_ t;
     bCloudDeformationOnSparseMapChange_ := bCloudDeformationOnSparseMapChange_ t;
     pointCloudMutex_ := pointCloudMutex_ t;
     pPointCloud_ := pPointCloud_ t;
     pPointCloudUnstable_ := pPointCloudUnstable_ t;
     lastTimestamp_ := lastTimestamp_ t;
     nDownsampleStep_ := nDownsampleStep_ t;
     bMapUpdated_ := bMapUpdated_ t;
     bRemoveUnstablePoints_ := bRemoveUnstablePoints_ t;
     bPerformSegmentation_ := bPerformSegmentation_ t;
     bPerformCarving_ := val;
     minCosForNormalAssociation_ := minCosForNormalAssociation_ t |}.

Definition SetDownsampleStep (val : Z) (t : PointCloudMap) :=
  {| resolution_ := resolution_ t;
     bResetOnSparseMapChange_ := bResetOnSparseMapChange_ t;
     bCloudDeformationOnSparseMapChange_ := bCloudDeformationOnSparseMapChange_ t;
     pointCloudMutex_ := pointCloudMutex_ t;
     pPointCloud_ := pPointCloud_ t;
     pPointCloudUnstable_ := pPointCloudUnstable_ t;
     lastTimestamp_ := lastTimestamp_ t;
     nDownsampleStep_ := val;
     bMapUpdated_ := bMapUpdated_ t;
     bRemoveUnstablePoints_ := bRemoveUnstablePoints_ t;
     bPerformSegmentation_ := bPerformSegmentation_ t;
     bPerformCarving_ := bPerformCarving_ t;
     minCosForNormalAssociation_ := minCosForNormalAssociation_ t |}.

Definition SetResetOnMapChange (val : bool) (t : PointCloudMap) :=
  {| resolution_ := resolution_ t;
     bResetOnSparseMapChange_ := val;
     bCloudDeformationOnSparseMapChange_ := bCloudDeformationOnSparseMapChange_ t;
     pointCloudMutex_ := pointCloudMutex_ t;
     pPointCloud_ := pPointCloud_ t;
     pPointCloudUnstable_ := pPointCloudUnstable_ t;
     lastTimestamp_ := lastTimestamp_ t;
     nDownsampleStep_ := nDownsampleStep_ t;
     bMapUpdated_ := bMapUpdated_ t;
     bRemoveUnstablePoints_ := bRemoveUnstablePoints_ t;
     bPerformSegmentation_ := bPerformSegmentation_ t;
     bPerformCarving_ := bPerformCarving_ t;
     minCosForNormalAssociation_ := minCosForNormalAssociation_ t |}.

Definition SetKfAdjustmentOnMapChange (val : bool) (t : PointCloudMap) :=
  {| resolution_ := resolution_ t;
     bResetOnSparseMapChange_ := bResetOnSparseMapChange_ t;
     bCloudDeformationOnSparseMapChange_ := val;
     pointCloudMutex_ := pointCloudMutex_ t;
     pPointCloud_ := pPointCloud_ t;
     pPointCloudUnstable_ := pPointCloudUnstable_ t;
     lastTimestamp_ := lastTimestamp_ t;
     nDownsampleStep_ := nDownsampleStep_ t;
     bMapUpdated_ := bMapUpdated_ t;
     bRemoveUnstablePoints_ := bRemoveUnstablePoints_ t;
     bPerformSegmentation_ := bPerformSegmentation_ t;
     bPerformCarving_ := bPerformCarving_ t;
     minCosForNormalAssociation_ := minCosForNormalAssociation_ t |}.

Definition SetMinCosForNormalAssociation (val : float) (t : PointCloudMap) :=
  {| resolution_ := resolution_ t;
     bResetOnSparseMapChange_ := bResetOnSparseMapChange_ t;
     bCloudDeformationOnSparseMapChange_ := bCloudDeformationOnSparseMapChange_ t;
     pointCloudMutex_ := pointCloudMutex_ t;
     pPointCloud_ := pPointCloud_ t;
     pPointCloudUnstable_ := pPointCloudUnstable_ t;
     lastTimestamp_ := lastTimestamp_ t;
     nDownsampleStep_ := nDownsampleStep_ t;
     bMapUpdated_ := bMapUpdated_ t;
     bRemoveUnstablePoints_ := bRemoveUnstablePoints_ t;
     bPerformSegmentation_ := bPerformSegmentation_ t;
     bPerformCarving_ := bPerformCarving_ t;
     minCosForNormalAssociation_ := val |}.

(** A sequence of calls to the setters of the class, the virtual setters
    with an empty body included. *)
Inductive setter_call : Type :=
| CallSetDepthCameraModel (params : CameraModelParams)
| CallSetColorCameraModel (params : CameraModelParams)
| CallSetIntProperty (property : N) (val : Z)
| CallSetBoolProperty (property : N) (val : bool)
| CallSetFloatProperty (property : N) (val : float)
| CallSetRemoveUnstablePoints (val : bool)
| CallSetPerformSegmentation (val : bool)
| CallSetPerformCarving (val : bool)
| CallSetDownsampleStep (val : Z)
| CallSetResetOnMapChange (val : bool)
| CallSetKfAdjustmentOnMapChange (val : bool)
| CallSetMinCosForNormalAssociation (val : float).

Definition apply_setter (c : setter_call) (t : PointCloudMap) : PointCloudMap :=
  match c with
  | CallSetDepthCameraModel _ | CallSetColorCameraModel _ => t
  | CallSetIntProperty _ _ | CallSetBoolProperty _ _ | CallSetFloatProperty _ _ => t
  | CallSetRemoveUnstablePoints val => SetRemoveUnstablePoints val t
  | CallSetPerformSegmentation val => SetPerformSegmentation val t
  | CallSetPerformCarving val => SetPerformCarving val t
  | CallSetDownsampleStep val => SetDownsampleStep val t
  | CallSetResetOnMapChange val => SetResetOnMapChange val t
  | CallSetKfAdjustmentOnMapChange val => SetKfAdjustmentOnMapChange val t
  | CallSetMinCosForNormalAssociation val => SetMinCosForNormalAssociation val t
  end.

Definition configure (calls : list setter_call) (t : PointCloudMap) : PointCloudMap :=
  fold_left (λ t c, apply_setter c t) calls t.

(** The argument of the last call in [calls] that reaches a given member
    ([pick c] is that argument when [c] is such a call), [dflt] if none. *)
Definition last_arg {A : Type} (pick : setter_call → option A)
    (calls : list setter_call) (dflt : A) : A :=
  fold_left (λ a c, default a (pick c)) calls dflt.

Definition reset_arg (c : setter_call) : option bool :=
  match c with CallSetResetOnMapChange val => Some val | _ => None end.

Definition kf_adjustment_arg (c : setter_call) : option bool :=
  match c with CallSetKfAdjustmentOnMapChange val => Some val | _ => None end.

Definition downsample_arg (c : setter_call) : option Z :=
  match c with CallSetDownsampleStep val => Some val | _ => None end.

(** [c] is not a call of [SetDownsampleStep] with a stride below one. *)
Definition stride_ok (c : setter_call) : bool :=
  match downsample_arg c with
  | Some val => 1 <=? val
  | None => true
  end.

(** *** Pointer validity *)

(** A shared pointer is null or keeps its cloud alive. *)
Definition live (h : gmap loc PointCloudT) (p : Ptr) : Prop :=
  match p with
  | Some l => is_Some (h !! l)
  | None => True
  end.

Definition wf (σ : state) : Prop :=
  live (heap σ) (pPointCloud_ (this σ)) ∧
  live (heap σ) (pPointCloudUnstable_ (this σ)).

(** *** Members defined outside the header *)

(** Modelled from the spec: [PointCloudMapInput], whose header is not among
    the sources.  "A single observation: a camera-local point cloud plus the
    camera-to-world transform at capture time, plus the frame's sensor
    timestamp." *)
Record PointCloudMapInput : Type := {
  cloudCamera : list PointT;
  Twc : list double;
  timestamp : N
}.

(** Steps 2 to 7 of the ingestion algorithm (transform, subsampling,
    association, promotion, carving, segmentation) belong to the geometry
    collaborators: one function from a frame and the stable and unstable
    point sets to the new ones. *)
Variable integrate :
  PointCloudMapInput → list PointT * list PointT → list PointT * list PointT.

Definition set_points (ps : list PointT) (c : PointCloudT) : PointCloudT :=
  {| header := header c; points := ps;
     width := N.of_nat (length ps); height := 1; is_dense := is_dense c |}.

Definition set_stamp (ts : N) (c : PointCloudT) : PointCloudT :=
  {| header := {| seq := seq (header c); stamp := ts;
                  frame_id := frame_id (header c) |};
     points := points c; width := width c; height := height c;
     is_dense := is_dense c |}.

(** Modelled from the spec: [UpdateMapTimestamp], declared in the header and
    defined elsewhere.  "Update the Map Store timestamp to the frame's
    timestamp": the stamp of the stored cloud becomes [lastTimestamp_], the
    last received data timestamp. *)
Definition UpdateMapTimestamp (σ : state) : option state :=
  match pPointCloud_ (this σ) with
  | Some l =>
      match heap σ !! l with
      | Some c =>
          Some {| heap := <[l := set_stamp (lastTimestamp_ (this σ)) c]> (heap σ);
                  this := this σ |}
      | None => None
      end
  | None => None
  end.

(** Modelled from the spec: the ingestion of one frame ([InsertData] and
    [UpdateMap] are pure virtual in the header).  Under the write lock:
    "reject the frame if its sensor timestamp is not newer than the last
    accepted timestamp"; "a malformed/empty input frame is a no-op";
    otherwise merge the points and "update the Map Store timestamp to the
    frame's timestamp".  The result is [true] for an accepted merge and
    [false] for a dropped frame. *)
Definition ingest (sch : scheduler) (f : PointCloudMapInput) (σ : state)
  : outcome bool :=
  match lock sch (pointCloudMutex_ (this σ)) with
  | None => Blocks _
  | Some lck =>
      if decide (timestamp f ≤ lastTimestamp_ (this σ))%N
      then Returns _ false (leave (heap σ) lck σ)
      else
        match cloudCamera f with
        | [] => Returns _ false (leave (heap σ) lck σ)
        | _ :: _ =>
            match pPointCloud_ (this σ), pPointCloudUnstable_ (this σ) with
            | Some ls, Some lu =>
                match heap σ !! ls, heap σ !! lu with
                | Some cs, Some cu =>
                    let '(ps, pu) := integrate f (points cs, points cu) in
                    let h := <[ls := set_points ps cs]>
                               (<[lu := set_points pu cu]> (heap σ)) in
                    let σ1 := {| heap := h;
                                 this := with_lastTimestamp (timestamp f) (this σ) |} in
                    match UpdateMapTimestamp σ1 with
                    | Some σ2 => Returns _ true (leave (heap σ2) lck σ2)
                    | None => Undefined _
                    end
                | _, _ => Undefined _
                end
            | _, _ => Undefined _
            end
        end
  end.

(** [pcl::PointCloud::clear] together with the reset of the stamp. *)
Definition clear_cloud (c : PointCloudT) : PointCloudT :=
  {| header := {| seq := seq (header c); stamp := 0;
                  frame_id := frame_id (header c) |};
     points := []; width := 0; height := 0; is_dense := is_dense c |}.

Definition clear_at (p : Ptr) (h : gmap loc PointCloudT) : gmap loc PointCloudT :=
  match p with
  | Some l => alter clear_cloud l h
  | None => h
  end.

(** Modelled from the spec: [ResetPointCloud], declared in the header and
    defined elsewhere.  "Clears both clouds and resets timestamp; must be
    called only while holding the write lock." *)
Definition ResetPointCloud (σ : state) : state :=
  {| heap := clear_at (pPointCloudUnstable_ (this σ))
               (clear_at (pPointCloud_ (this σ)) (heap σ));
     this := with_lastTimestamp 0 (this σ) |}.

(** Modelled from the spec: [Clear], declared virtual in the header and
    defined elsewhere: the reset, run under the blocking write lock. *)
Definition Clear (sch : scheduler) (σ : state) : outcome unit :=
  match lock sch (pointCloudMutex_ (this σ)) with
  | None => Blocks _
  | Some lck =>
      let σ1 := ResetPointCloud σ in
      Returns _ () (leave (heap σ1) lck σ1)
  end.

(** The stamp of the stored cloud, when there is one. *)
Definition map_stamp (σ : state) : option N :=
  match pPointCloud_ (this σ) with
  | Some l => (λ c, stamp (header c)) <$> heap σ !! l
  | None => None
  end.

(** The clouds behind the two owned pointers, when there are any. *)
Definition stable_cloud (σ : state) : option PointCloudT :=
  match pPointCloud_ (this σ) with
  | Some l => heap σ !! l
  | None => None
  end.

Definition unstable_cloud (σ : state) : option PointCloudT :=
  match pPointCloudUnstable_ (this σ) with
  | Some l => heap σ !! l
  | None => None
  end.

(** [l] holds a cloud that neither owned pointer refers to. *)
Definition isolated (σ : state) (l : loc) : Prop :=
  is_Some (heap σ !! l) ∧
  pPointCloud_ (this σ) ≠ Some l ∧
  pPointCloudUnstable_ (this σ) ≠ Some l.

(** [σ'] has the owned pointers of [σ]. *)
Definition same_pointers (σ σ' : state) : Prop :=
  pPointCloud_ (this σ') = pPointCloud_ (this σ) ∧
  pPointCloudUnstable_ (this σ') = pPointCloudUnstable_ (this σ).

(** *** What can happen to the store after a snapshot was handed out *)

(** One step of the map store: a frame ingested or dropped, a reset, a
    clear, any other write through one of the two owned pointers (whatever
    a subclass makes of [UpdateMap]), an owned pointer re-seated on a newly
    allocated cloud or dropped to null, a setter, or one more snapshot
    taken by some reader. *)
Inductive store_step : state → state → Prop :=
| step_ingest sch f σ b σ' :
    ingest sch f σ = Returns _ b σ' → store_step σ σ'
| step_reset σ :
    store_step σ (ResetPointCloud σ)
| step_clear sch σ σ' :
    Clear sch σ = Returns _ () σ' → store_step σ σ'
| step_write_stable σ l c :
    pPointCloud_ (this σ) = Some l →
    store_step σ {| heap := <[l := c]> (heap σ); this := this σ |}
| step_write_unstable σ l c :
    pPointCloudUnstable_ (this σ) = Some l →
    store_step σ {| heap := <[l := c]> (heap σ); this := this σ |}
| step_reseat_stable σ c :
    store_step σ {| heap := <[fresh (dom (heap σ)) := c]> (heap σ);
                    this := with_pPointCloud (Some (fresh (dom (heap σ)))) (this σ) |}
| step_reseat_unstable σ c :
    store_step σ {| heap := <[fresh (dom (heap σ)) := c]> (heap σ);
                    this := with_pPointCloudUnstable (Some (fresh (dom (heap σ))))
                              (this σ) |}
| step_null_stable σ :
    store_step σ {| heap := heap σ; this := with_pPointCloud None (this σ) |}
| step_null_unstable σ :
    store_step σ {| heap := heap σ; this := with_pPointCloudUnstable None (this σ) |}
| step_setter c σ :
    store_step σ {| heap := heap σ; this := apply_setter c (this σ) |}
| step_GetMap sch σ p σ' :
    GetMap sch σ = Returns _ p σ' → store_step σ σ'
| step_GetMapWithTimeout sch timeout σ p σ' :
    GetMapWithTimeout sch timeout σ = Returns _ p σ' → store_step σ σ'
| step_GetMapWithTimeout3 sch args timeout copyUnstable σ out σ' :
    GetMapWithTimeout3 sch args timeout copyUnstable σ = Returns _ out σ' →
    store_step σ σ'.

(** [snapshot σ l σ']: some getter called in [σ] returned the non-null
    pointer [l] as a copy and left the state [σ']. *)
Inductive snapshot (σ : state) (l : loc) (σ' : state) : Prop :=
| snap_GetMap sch :
    GetMap sch σ = Returns _ (Some l) σ' → snapshot σ l σ'
| snap_GetMapWithTimeout sch timeout :
    GetMapWithTimeout sch timeout σ = Returns _ (Some l) σ' → snapshot σ l σ'
| snap_pCloud sch args timeout copyUnstable out :
    GetMapWithTimeout3 sch args timeout copyUnstable σ = Returns _ out σ' →
    pCloud out = Some l → snapshot σ l σ'
| snap_pCloudUnstable sch args timeout out :
    GetMapWithTimeout3 sch args timeout true σ = Returns _ out σ' →
    pCloudUnstable out = Some l → snapshot σ l σ'.

(** The stamps [GetMapTimestamp] reports after each accepted merge while
    the frames [fs] are offered in turn, up to the first call that does not
    return. *)
Fixpoint merge_stamps (fs : list (scheduler * PointCloudMapInput)) (σ : state)
  : list N :=
  match fs with
  | [] => []
  | (sch, f) :: fs' =>
      match ingest sch f σ with
      | Returns _ true σ1 =>
          match GetMapTimestamp sch σ1 with
          | Returns _ ts σ2 => ts :: merge_stamps fs' σ2
          | _ => []
          end
      | Returns _ false σ1 => merge_stamps fs' σ1
      | _ => []
      end
  end.

(** The value carried by a call that returned. *)
Definition returned {A : Type} (o : outcome A) : option A :=
  match o with
  | Returns _ a _ => Some a
  | _ => None
  end.

(** *** The calls of the interface that have a body in the header *)

(** [virtual void OnMapChange(){}]. *)
Definition OnMapChange (σ : state) : state := σ.

(** The state a call leaves, when it returns. *)
Definition after {A : Type} (o : outcome A) : option state :=
  match o with
  | Returns _ _ σ => Some σ
  | _ => None
  end.

Definition outcome_map {A B : Type} (f : A → B) (o : outcome A) : outcome B :=
  match o with
  | Returns _ a σ => Returns _ (f a) σ
  | Blocks _ => Blocks _
  | Undefined _ => Undefined _
  end.

Inductive api_call : Type :=
| DoGetMap
| DoGetMapWithTimeout (timeout : milliseconds)
| DoGetMapWithTimeout3 (args : map_outputs) (timeout : milliseconds)
    (copyUnstable : bool)
| DoGetMapTimestamp
| DoSetter (c : setter_call)
| DoOnMapChange.

Definition run_call (sch : scheduler) (call : api_call) (σ : state) : option state :=
  match call with
  | DoGetMap => after (GetMap sch σ)
  | DoGetMapWithTimeout timeout => after (GetMapWithTimeout sch timeout σ)
  | DoGetMapWithTimeout3 args timeout copyUnstable =>
      after (GetMapWithTimeout3 sch args timeout copyUnstable σ)
  | DoGetMapTimestamp => after (GetMapTimestamp sch σ)
  | DoSetter c => Some {| heap := heap σ; this := apply_setter c (this σ) |}
  | DoOnMapChange => Some (OnMapChange σ)
  end.

(** The calls of [calls] one after the other, each made by the thread its
    scheduler names; [None] as soon as one of them does not return. *)
Fixpoint run_calls (calls : list (scheduler * api_call)) (σ : state) : option state :=
  match calls with
  | [] => Some σ
  | (sch, call) :: calls' =>
      match run_call sch call σ with
      | Some σ' => run_calls calls' σ'
      | None => None
      end
  end.

(** How many times thread [me] holds the mutex. *)
Definition held_depth (me : thread_id) (m : recursive_timed_mutex) : nat :=
  match m with
  | LockedBy o n => if decide (o = me) then S n else 0%nat
  | Unlocked => 0%nat
  end.

(** The mutex is free or owned by the calling thread. *)
Definition available (sch : scheduler) (m : recursive_timed_mutex) : bool :=
  match m with
  | LockedBy o _ => bool_decide (o = self sch)
  | Unlocked => true
  end.

(** The member a setter call writes, if any. *)
Inductive member : Type :=
| RemoveUnstablePoints
| PerformSegmentation
| PerformCarving
| DownsampleStep
| ResetOnMapChange
| KfAdjustmentOnMapChange
| MinCosForNormalAssociation.

Definition target (c : setter_call) : option member :=
  match c with
  | CallSetDepthCameraModel _ | CallSetColorCameraModel _ => None
  | CallSetIntProperty _ _ | CallSetBoolProperty _ _ | CallSetFloatProperty _ _ => None
  | CallSetRemoveUnstablePoints _ => Some RemoveUnstablePoints
  | CallSetPerformSegmentation _ => Some PerformSegmentation
  | CallSetPerformCarving _ => Some PerformCarving
  | CallSetDownsampleStep _ => Some DownsampleStep
  | CallSetResetOnMapChange _ => Some ResetOnMapChange
  | CallSetKfAdjustmentOnMapChange _ => Some KfAdjustmentOnMapChange
  | CallSetMinCosForNormalAssociation _ => Some MinCosForNormalAssociation
  end.

Definition remove_unstable_arg (c : setter_call) : option bool :=
  match c with CallSetRemoveUnstablePoints val => Some val | _ => None end.

Definition segmentation_arg (c : setter_call) : option bool :=
  match c with CallSetPerformSegmentation val => Some val | _ => None end.

Definition carving_arg (c : setter_call) : option bool :=
  match c with CallSetPerformCarving val => Some val | _ => None end.

Definition min_cos_arg (c : setter_call) : option float :=
  match c with CallSetMinCosForNormalAssociation val => Some val | _ => None end.

(** The clouds allocated by a call that returned the pointer [p]. *)
Definition allocated_by (p : Ptr) : gset loc :=
  match p with
  | Some l => {[ l ]}
  | None => ∅
  end.

(** *** The reference parameters of the three-output overload *)

(** A [Ptr] variable of the caller, by its address. *)
Definition var := positive.

(** The three-output [GetMapWithTimeout] with [pCloud] and [pCloudUnstable]
    as the references they are: each names a variable of the caller, possibly
    the same one, and the assignments go through them in the order of the
    source.  [vars] holds the caller's pointer variables, [caller_faces] its
    vector; the call returns both as it leaves them. *)
Definition GetMapWithTimeout3_refs (sch : scheduler) (r_pCloud r_pCloudUnstable : var)
    (timeout : milliseconds) (copyUnstable : bool)
    (vars : gmap var Ptr) (caller_faces : list N) (σ : state)
  : outcome (gmap var Ptr * list N) :=
  match try_lock_for sch timeout (pointCloudMutex_ (this σ)) with
  | Some lck =>
      match copy_or_null (heap σ) (pPointCloud_ (this σ)) with
      | Some (h1, pc) =>
          let vars1 := <[r_pCloud := pc]> vars in
          if copyUnstable then
            match copy_or_null h1 (pPointCloudUnstable_ (this σ)) with
            | Some (h2, pu) =>
                Returns _ (<[r_pCloudUnstable := pu]> vars1, []) (leave h2 lck σ)
            | None => Undefined _
            end
          else Returns _ (vars1, []) (leave h1 lck σ)
      | None => Undefined _
      end
  | None =>
      Returns _ (<[r_pCloudUnstable := None]> (<[r_pCloud := None]> vars), []) σ
  end.

(** Two setter calls write one and the same member. *)
Definition member_eqb (a b : member) : bool :=
  match a, b with
  | RemoveUnstablePoints, RemoveUnstablePoints
  | PerformSegmentation, PerformSegmentation
  | PerformCarving, PerformCarving
  | DownsampleStep, DownsampleStep
  | ResetOnMapChange, ResetOnMapChange
  | KfAdjustmentOnMapChange, KfAdjustmentOnMapChange
  | MinCosForNormalAssociation, MinCosForNormalAssociation => true
  | _, _ => false
  end.

Definition write_same_member (c1 c2 : setter_call) : bool :=
  match target c1, target c2 with
  | Some a, Some b => member_eqb a b
  | _, _ => false
  end.

End PointCloudMap.

Arguments Returns {PointT A} a σ.
Arguments Blocks {PointT A}.
Arguments Undefined {PointT A}.
Arguments returned {PointT A} o.
Arguments heap {PointT} s.
Arguments this {PointT} s.
Arguments GetMap {PointT} sch σ.
Arguments GetMapWithTimeout {PointT} sch timeout σ.
Arguments GetMapWithTimeout3 {PointT} sch args timeout copyUnstable σ.
Arguments GetMapTimestamp {PointT} sch σ.
Arguments makeShared {PointT} h l.
Arguments copy_or_null {PointT} h p.
Arguments leave {PointT} h m' σ.
Arguments live {PointT} h p.
Arguments wf {PointT} σ.
Arguments ingest {PointT} integrate sch f σ.
Arguments UpdateMapTimestamp {PointT} σ.
Arguments ResetPointCloud {PointT} σ.
Arguments Clear {PointT} sch σ.
Arguments clear_cloud {PointT} c.
Arguments clear_at {PointT} p h.
Arguments set_points {PointT} ps c.
Arguments set_stamp {PointT} ts c.
Arguments store_step {PointT} integrate _ _.
Arguments snapshot {PointT} σ l σ'.
Arguments merge_stamps {PointT} integrate fs σ.
Arguments map_stamp {PointT} σ.
Arguments OnMapChange {PointT} σ.
Arguments after {PointT A} o.
Arguments outcome_map {PointT A B} f o.
Arguments run_call {PointT} sch call σ.
Arguments run_calls {PointT} calls σ.
Arguments GetMapWithTimeout3_refs {PointT} sch r_pCloud r_pCloudUnstable timeout copyUnstable vars caller_faces σ.
Arguments isolated {PointT} σ l.
Arguments stable_cloud {PointT} σ.
Arguments unstable_cloud {PointT} σ.
Arguments same_pointers {PointT} σ σ'.
Arguments header {PointT} p.
Arguments points {PointT} p.
Arguments width {PointT} p.
Arguments height {PointT} p.
Arguments cloudCamera {PointT} p.
Arguments timestamp {PointT} p.

(** ** The instance [PointCloudMap<pcl::PointXYZRGBA>] and some states of it *)

Record PointXYZRGBA : Type := {
  x : float;
  y : float;
  z : float;
  rgba : N
}.

Module Examples.

Local Open Scope N_scope.

Definition pt (a b c : N) : PointXYZRGBA := {| x := a; y := b; z := c; rgba := 255 |}.

Definition cloud (ts : N) (ps : list PointXYZRGBA) : PointCloudT PointXYZRGBA :=
  {| header := {| seq := 0; stamp := ts; frame_id := "map" |};
     points := ps; width := N.of_nat (length ps); height := 1; is_dense := true |}.

(** No cloud allocated, every option off, stride one. *)
Definition members : PointCloudMap :=
  {| resolution_ := 0;
     bResetOnSparseMapChange_ := false;
     bCloudDeformationOnSparseMapChange_ := false;
     pointCloudMutex_ := Unlocked;
     pPointCloud_ := None;
     pPointCloudUnstable_ := None;
     lastTimestamp_ := 0;
     nDownsampleStep_ := 1%Z;
     bMapUpdated_ := false;
     bRemoveUnstablePoints_ := false;
     bPerformSegmentation_ := false;
     bPerformCarving_ := false;
     minCosForNormalAssociation_ := 0 |}.

Definition unallocated : state PointXYZRGBA :=
  {| heap := ∅; this := members |}.

(** Two stable points and one unstable point, last merge at time 4. *)
Definition mapping : state PointXYZRGBA :=
  {| heap := <[1%positive := cloud 4 [pt 1 2 3; pt 4 5 6]]>
               (<[2%positive := cloud 0 [pt 7 8 9]]> ∅);
     this := with_lastTimestamp 4
               (with_pPointCloud (Some 1%positive)
                  (with_pPointCloudUnstable (Some 2%positive) members)) |}.

(** The same map while the ingestion thread (thread 7) holds the mutex. *)
Definition busy : state PointXYZRGBA :=
  {| heap := heap mapping; this := with_mutex (LockedBy 7%nat 0%nat) (this mapping) |}.

(** A reader (thread 1) for whom a foreign owner never lets go, and one
    for whom it lets go after 30 ms. *)
Definition starved : scheduler :=
  {| self := 1%nat; release_after := None; clock_now := 5000000000%Z |}.
Definition served : scheduler :=
  {| self := 1%nat; release_after := Some 30; clock_now := 5000000000%Z |}.

(** A stand-in for the geometry: every unstable point is promoted and the
    points of the frame become the unstable ones. *)
Definition promote_all (f : PointCloudMapInput PointXYZRGBA)
    (clouds : list PointXYZRGBA * list PointXYZRGBA) :=
  (clouds.1 ++ clouds.2, cloudCamera f).

Definition frame (ts : N) (ps : list PointXYZRGBA) : PointCloudMapInput PointXYZRGBA :=
  {| cloudCamera := ps; Twc := []; timestamp := ts |}.

Definition stale_outputs : map_outputs :=
  {| pCloud := Some 1%positive; pCloudUnstable := Some 2%positive; faces := [3; 1; 2] |}.

(** [mapping] after a reader took a snapshot, after one more frame was
    merged, and after a reset. *)
Definition after_GetMap : state PointXYZRGBA :=
  match GetMap starved mapping with
  | Returns _ σ => σ
  | _ => mapping
  end.

Definition first_frame : PointCloudMapInput PointXYZRGBA := frame 5 [pt 0 0 0].

Definition after_merge : state PointXYZRGBA :=
  match ingest promote_all starved first_frame after_GetMap with
  | Returns _ σ => σ
  | _ => after_GetMap
  end.

Definition after_reset : state PointXYZRGBA := ResetPointCloud after_merge.

Definition frames : list (scheduler * PointCloudMapInput PointXYZRGBA) :=
  [(starved, first_frame); (starved, frame 5 [pt 0 0 1]);
   (starved, frame 3 [pt 0 1 0]); (starved, frame 9 []);
   (starved, frame 9 [pt 1 0 0])].

(** A session of the ingestion thread (thread 7) and a reader (thread 1)
    over [mapping]. *)
Definition writer : scheduler :=
  {| self := 7%nat; release_after := None; clock_now := 5000000000%Z |}.

Definition session : list (scheduler * api_call) :=
  [(starved, DoGetMap);
   (writer, DoSetter (CallSetDownsampleStep 3%Z));
   (starved, DoGetMapWithTimeout3 stale_outputs 10%Z true);
   (writer, DoGetMapTimestamp);
   (writer, DoOnMapChange);
   (starved, DoGetMapWithTimeout 5%Z)].

(** [mapping] while the calling reader itself (thread 1) holds the mutex
    twice. *)
Definition reentered : state PointXYZRGBA :=
  {| heap := heap mapping; this := with_mutex (LockedBy 1%nat 1%nat) (this mapping) |}.

(** [mapping] after two snapshots in a row, and after the whole session. *)
Definition after_GetMap_twice : state PointXYZRGBA :=
  match GetMap served after_GetMap with
  | Returns _ σ => σ
  | _ => after_GetMap
  end.

Definition after_session : state PointXYZRGBA :=
  default mapping (run_calls session mapping).

(** [reentered] after the reader took one more snapshot. *)
Definition after_reentrant : state PointXYZRGBA :=
  default reentered (run_call starved DoGetMap reentered).

(** Two pointer variables of a reader, at addresses 10 and 11, holding
    what an earlier call left there. *)
Definition reader_vars : gmap var Ptr :=
  <[10%positive := Some 1%positive]> (<[11%positive := Some 2%positive]> ∅).

End Examples.

(** ** Properties *)

Section Properties.

Context {PointT : Type}.
Variable integrate :
  PointCloudMapInput PointT → list PointT * list PointT → list PointT * list PointT.

Implicit Types (σ : state PointT) (h : gmap loc (PointCloudT PointT)).
Implicit Types (p : Ptr) (l : loc) (t : PointCloudMap).

(** *** The mutex *)

Lemma try_lock_for_lock sch timeout m lck :
  try_lock_for sch timeout m = Some lck → lock sch m = Some lck.
Proof.
  unfold try_lock_for, lock. destruct m as [|o n]; [done|].
  case_decide; [done|]. destruct (release_after sch); [|done].
  by case_decide.
Qed.

(** Taking and giving back a mutex that is free or already ours leaves it
    as it was. *)
Lemma unlock_lock_own sch m lck :
  lock sch m = Some lck →
  m = Unlocked ∨ (∃ n, m = LockedBy (self sch) n) →
  unlock lck = m.
Proof.
  unfold lock. intros Hl [->|[n ->]]; simpl in Hl.
  - by simplify_eq.
  - rewrite decide_True in Hl by done. by simplify_eq.
Qed.

(** *** The guarded copy *)

Lemma copy_or_null_inv h p h' p' :
  copy_or_null h p = Some (h', p') →
  (p = None ∧ h' = h ∧ p' = None) ∨
  (∃ lm c, p = Some lm ∧ h !! lm = Some c ∧
           p' = Some (fresh (dom h)) ∧ h' = <[fresh (dom h) := c]> h).
Proof.
  unfold copy_or_null, makeShared. destruct p as [lm|].
  - destruct (h !! lm) as [c|] eqn:Hc; [|done].
    intros [= <- <-]. right. by exists lm, c.
  - intros [= <- <-]. by left.
Qed.

Lemma copy_or_null_live h p :
  live h p → ∃ h' p', copy_or_null h p = Some (h', p').
Proof.
  unfold live, copy_or_null, makeShared. destruct p as [lm|]; [|by eauto].
  intros [c ->]. by eauto.
Qed.

Lemma fresh_not_allocated h l : is_Some (h !! l) → fresh (dom h) ≠ l.
Proof.
  intros Hl Heq. apply (is_fresh (dom h)). rewrite Heq. by apply elem_of_dom.
Qed.

Lemma copy_or_null_frame h p h' p' l :
  copy_or_null h p = Some (h', p') → is_Some (h !! l) → h' !! l = h !! l.
Proof.
  intros [(_ & -> & _)|(lm & c & _ & _ & _ & ->)]%copy_or_null_inv Hl; [done|].
  rewrite lookup_insert_ne; [done|]. by apply fresh_not_allocated.
Qed.

Lemma copy_or_null_live_mono h p h' p' q :
  copy_or_null h p = Some (h', p') → live h q → live h' q.
Proof.
  intros Hc. destruct q as [l|]; [|done]. simpl. intros Hl.
  by rewrite (copy_or_null_frame _ _ _ _ _ Hc Hl).
Qed.

(** A copy is a cloud of its own: newly allocated, equal to its source, and
    distinct from every cloud alive before. *)
Lemma copy_or_null_copy h p h' l :
  copy_or_null h p = Some (h', Some l) →
  ∃ lm c, p = Some lm ∧ h !! lm = Some c ∧ h' !! l = Some c ∧ h !! l = None.
Proof.
  intros [(_ & _ & ?)|(lm & c & -> & Hc & Hp & ->)]%copy_or_null_inv; [done|].
  injection Hp as Hp. subst l.
  exists lm, c. rewrite lookup_insert_eq. repeat split; try done.
  apply not_elem_of_dom, is_fresh.
Qed.

(** *** Timed snapshots *)

(** C1. When the mutex is not acquired within the timeout, the three-output
    [GetMapWithTimeout] returns with [pCloud] null, [pCloudUnstable] null
    and [faces] empty, the single-output overload returns null, and in both
    cases the heap and the map object are exactly as before the call. *)
Theorem GetMapWithTimeout_timed_out sch args timeout copyUnstable σ :
  try_lock_for sch timeout (pointCloudMutex_ (this σ)) = None →
  GetMapWithTimeout3 sch args timeout copyUnstable σ
    = Returns {| pCloud := None; pCloudUnstable := None; faces := [] |} σ ∧
  GetMapWithTimeout sch timeout σ = Returns None σ.
Proof.
  intros Hlock. unfold GetMapWithTimeout3, GetMapWithTimeout.
  by rewrite Hlock.
Qed.

(** C9. In a state whose owned pointers are null or alive, every call of
    the three-output [GetMapWithTimeout] returns, and returns [faces]
    empty, whether or not the mutex was acquired and whatever [faces] held
    before. *)
Theorem GetMapWithTimeout_faces_empty sch args timeout copyUnstable σ :
  wf σ →
  ∃ out σ',
    GetMapWithTimeout3 sch args timeout copyUnstable σ = Returns out σ' ∧
    faces out = [].
Proof.
  intros [Hs Hu]. unfold GetMapWithTimeout3.
  destruct (try_lock_for _ _ _) as [lck|]; [|by eauto].
  destruct (copy_or_null_live _ _ Hs) as (h1 & pc & Hc1). rewrite Hc1.
  destruct copyUnstable; [|by eauto].
  pose proof (copy_or_null_live_mono _ _ _ _ _ Hc1 Hu) as Hu1.
  destruct (copy_or_null_live _ _ Hu1) as (h2 & pu & ->). by eauto.
Qed.

(** C10. While the stable cloud pointer is null, [GetMap] and
    [GetMapWithTimeout] return null although they acquired the mutex, and
    that result is the one a timed-out [GetMapWithTimeout] gives in any
    state: the value returned does not tell the two situations apart. *)
Theorem null_map_returns_null sch timeout σ lck1 lck2 sch' timeout' σ' :
  pPointCloud_ (this σ) = None →
  lock sch (pointCloudMutex_ (this σ)) = Some lck1 →
  try_lock_for sch timeout (pointCloudMutex_ (this σ)) = Some lck2 →
  try_lock_for sch' timeout' (pointCloudMutex_ (this σ')) = None →
  GetMap sch σ = Returns None (leave (heap σ) lck1 σ) ∧
  GetMapWithTimeout sch timeout σ = Returns None (leave (heap σ) lck2 σ) ∧
  returned (GetMapWithTimeout sch timeout σ)
    = returned (GetMapWithTimeout sch' timeout' σ').
Proof.
  intros Hnull Hl1 Hl2 Hto. unfold GetMap, GetMapWithTimeout.
  by rewrite Hnull, Hl1, Hl2, Hto.
Qed.

(** *** The map timestamp *)

Lemma GetMapTimestamp_null sch σ lck :
  lock sch (pointCloudMutex_ (this σ)) = Some lck →
  pPointCloud_ (this σ) = None →
  GetMapTimestamp sch σ = Undefined.
Proof. intros Hl Hp. unfold GetMapTimestamp. by rewrite Hl, Hp. Qed.

(** With a cloud behind [pPointCloud_] the call returns its stamp. *)
Lemma GetMapTimestamp_live sch σ lck l c :
  lock sch (pointCloudMutex_ (this σ)) = Some lck →
  pPointCloud_ (this σ) = Some l → heap σ !! l = Some c →
  GetMapTimestamp sch σ = Returns (stamp (header c)) (leave (heap σ) lck σ).
Proof. intros Hl Hp Hc. unfold GetMapTimestamp. by rewrite Hl, Hp, Hc. Qed.

Lemma GetMapTimestamp_inv sch σ ts σ' :
  GetMapTimestamp sch σ = Returns ts σ' →
  map_stamp σ = Some ts ∧ heap σ' = heap σ ∧
  lastTimestamp_ (this σ') = lastTimestamp_ (this σ) ∧
  pPointCloud_ (this σ') = pPointCloud_ (this σ) ∧
  pPointCloudUnstable_ (this σ') = pPointCloudUnstable_ (this σ).
Proof.
  unfold GetMapTimestamp, map_stamp.
  destruct (lock _ _) as [lck|]; [|done].
  destruct (pPointCloud_ (this σ)) as [l|] eqn:Hp; [|done].
  destruct (heap σ !! l) as [c|]; [|done].
  intros [= <- <-]. simpl. by rewrite Hp.
Qed.

(** *** Ingestion *)

(** Splits a hypothesis [H : f ... = Returns _ _] along the branches of the
    function that produced it. *)
Ltac branches H :=
  repeat (cbv zeta in H;
          match type of H with
          | context [decide ?P] => destruct (decide P); try discriminate H
          | context [match ?x with _ => _ end] =>
              destruct x eqn:?; try discriminate H
          end).

Lemma UpdateMapTimestamp_inv σ σ' :
  UpdateMapTimestamp σ = Some σ' →
  ∃ l c, pPointCloud_ (this σ) = Some l ∧ heap σ !! l = Some c ∧
         heap σ' = <[l := set_stamp (lastTimestamp_ (this σ)) c]> (heap σ) ∧
         this σ' = this σ.
Proof.
  unfold UpdateMapTimestamp. intros H. branches H.
  injection H as <-. by eauto 10.
Qed.

Lemma ingest_accepted sch f σ σ' :
  ingest integrate sch f σ = Returns true σ' →
  (lastTimestamp_ (this σ) < timestamp f)%N ∧
  lastTimestamp_ (this σ') = timestamp f ∧
  map_stamp σ' = Some (timestamp f).
Proof.
  unfold ingest. intros H. branches H.
  match goal with Hu : UpdateMapTimestamp _ = Some _ |- _ =>
    apply UpdateMapTimestamp_inv in Hu as (lm & cm & Hp & Hc & Hh & Ht) end.
  injection H as <-. unfold map_stamp. simpl in *.
  rewrite Ht. simpl. rewrite Hp, Hh, lookup_insert_eq. simpl.
  split; [lia|done].
Qed.

Lemma ingest_dropped sch f σ σ' :
  ingest integrate sch f σ = Returns false σ' →
  lastTimestamp_ (this σ') = lastTimestamp_ (this σ) ∧ heap σ' = heap σ.
Proof.
  unfold ingest. intros H. branches H; by injection H as <-.
Qed.

(** Every stamp reported after an accepted merge is above the last
    timestamp the store had accepted before. *)
Lemma merge_stamps_above fs σ :
  Forall (λ ts, (lastTimestamp_ (this σ) < ts)%N) (merge_stamps integrate fs σ).
Proof.
  revert σ. induction fs as [|[sch f] fs IH]; intros σ; simpl; [by constructor|].
  destruct (ingest integrate sch f σ) as [[] σ1| |] eqn:Hi; try by constructor.
  - apply ingest_accepted in Hi as (Hlt & Hlast & Hstamp).
    destruct (GetMapTimestamp sch σ1) as [ts σ2| |] eqn:Hg; try by constructor.
    apply GetMapTimestamp_inv in Hg as (Hts & _ & Hlast2 & _).
    assert (ts = timestamp f) as -> by congruence.
    constructor; [done|].
    eapply Forall_impl; [apply IH|]. simpl. intros ts. rewrite Hlast2, Hlast. lia.
  - apply ingest_dropped in Hi as [Hlast _]. specialize (IH σ1).
    by rewrite Hlast in IH.
Qed.

Lemma merge_stamps_increasing fs σ :
  StronglySorted N.lt (merge_stamps integrate fs σ).
Proof.
  revert σ. induction fs as [|[sch f] fs IH]; intros σ; simpl; [by constructor|].
  destruct (ingest integrate sch f σ) as [[] σ1| |] eqn:Hi; try by constructor.
  - apply ingest_accepted in Hi as (Hlt & Hlast & Hstamp).
    destruct (GetMapTimestamp sch σ1) as [ts σ2| |] eqn:Hg; try by constructor.
    apply GetMapTimestamp_inv in Hg as (Hts & _ & Hlast2 & _).
    assert (ts = timestamp f) as -> by congruence.
    constructor; [apply IH|].
    eapply Forall_impl; [apply merge_stamps_above|].
    simpl. intros ts. by rewrite Hlast2, Hlast.
  - apply IH.
Qed.


(** *** Snapshot isolation *)

Lemma isolated_frame σ σ' l :
  same_pointers σ σ' → heap σ' !! l = heap σ !! l →
  isolated σ l → isolated σ' l ∧ heap σ' !! l = heap σ !! l.
Proof.
  intros [Hs Hu] Hh (Hl & Hns & Hnu). unfold isolated.
  by rewrite Hs, Hu, Hh.
Qed.

Lemma GetMap_frame sch σ p σ' l :
  GetMap sch σ = Returns p σ' → is_Some (heap σ !! l) →
  same_pointers σ σ' ∧ heap σ' !! l = heap σ !! l.
Proof.
  unfold GetMap. intros H Hl. branches H. injection H as <- <-.
  split; [done|]. simpl. by eapply copy_or_null_frame.
Qed.

Lemma GetMapWithTimeout_frame sch timeout σ p σ' l :
  GetMapWithTimeout sch timeout σ = Returns p σ' → is_Some (heap σ !! l) →
  same_pointers σ σ' ∧ heap σ' !! l = heap σ !! l.
Proof.
  unfold GetMapWithTimeout. intros H Hl. branches H; injection H as <- <-.
  - split; [done|]. simpl. by eapply copy_or_null_frame.
  - done.
Qed.

Lemma GetMapWithTimeout3_frame sch args timeout copyUnstable σ out σ' l :
  GetMapWithTimeout3 sch args timeout copyUnstable σ = Returns out σ' →
  is_Some (heap σ !! l) →
  same_pointers σ σ' ∧ heap σ' !! l = heap σ !! l.
Proof.
  unfold GetMapWithTimeout3. intros H Hl. branches H; injection H as <- <-.
  - split; [done|]. simpl.
    match goal with
    | H1 : copy_or_null (heap σ) _ = Some _,
      H2 : copy_or_null _ _ = Some _ |- _ =>
        pose proof (copy_or_null_frame _ _ _ _ _ H1 Hl) as E1;
        rewrite <- E1 in Hl;
        pose proof (copy_or_null_frame _ _ _ _ _ H2 Hl) as E2
    end.
    congruence.
  - split; [done|]. simpl. by eapply copy_or_null_frame.
  - done.
Qed.

Lemma ingest_frame sch f σ b σ' l :
  ingest integrate sch f σ = Returns b σ' →
  pPointCloud_ (this σ) ≠ Some l → pPointCloudUnstable_ (this σ) ≠ Some l →
  same_pointers σ σ' ∧ heap σ' !! l = heap σ !! l.
Proof.
  unfold ingest. intros H Hns Hnu. branches H; try by injection H as <- <-.
  match goal with Hu : UpdateMapTimestamp _ = Some _ |- _ =>
    apply UpdateMapTimestamp_inv in Hu as (lm & cm & Hp & Hc & Hh & Ht) end.
  injection H as <- <-. simpl in *. split.
  - unfold same_pointers. simpl. by rewrite Ht.
  - rewrite Hh. rewrite !lookup_insert_ne; congruence.
Qed.

Lemma clear_at_frame p h l : p ≠ Some l → clear_at p h !! l = h !! l.
Proof.
  destruct p as [lm|]; [|done]. simpl. intros Hne.
  apply lookup_alter_ne. congruence.
Qed.

Lemma ResetPointCloud_frame σ l :
  pPointCloud_ (this σ) ≠ Some l → pPointCloudUnstable_ (this σ) ≠ Some l →
  same_pointers σ (ResetPointCloud σ) ∧
  heap (ResetPointCloud σ) !! l = heap σ !! l.
Proof.
  intros Hns Hnu. split; [done|]. simpl. by rewrite !clear_at_frame.
Qed.

(** No step of the store reaches a cloud that is kept apart from the two
    owned pointers, nor makes an owned pointer refer to it. *)
Lemma store_step_isolated σ σ' l :
  store_step integrate σ σ' → isolated σ l →
  isolated σ' l ∧ heap σ' !! l = heap σ !! l.
Proof.
  intros Hstep Hiso. pose proof Hiso as (Hl & Hns & Hnu).
  destruct Hstep as
    [sch f σ b σ' H|σ|sch σ σ' H|σ lm c Hp|σ lm c Hp|σ c|σ c|σ|σ|c σ
    |sch σ p σ' H|sch timeout σ p σ' H|sch args timeout cu σ out σ' H].
  - destruct (ingest_frame _ _ _ _ _ l H) as [Hsp Hh]; [done..|].
    by apply isolated_frame.
  - destruct (ResetPointCloud_frame σ l) as [Hsp Hh]; [done..|].
    by apply isolated_frame.
  - unfold Clear in H. branches H. injection H as <-.
    destruct (ResetPointCloud_frame σ l) as [Hsp Hh]; [done..|].
    by apply isolated_frame.
  - apply isolated_frame; [done| |done]. simpl.
    apply lookup_insert_ne. congruence.
  - apply isolated_frame; [done| |done]. simpl.
    apply lookup_insert_ne. congruence.
  - pose proof (fresh_not_allocated _ _ Hl) as Hf.
    assert (<[fresh (dom (heap σ)) := c]> (heap σ) !! l = heap σ !! l) as Hh
      by by apply lookup_insert_ne.
    split; [|done]. unfold isolated. simpl. rewrite Hh.
    repeat split; [done| |done]. congruence.
  - pose proof (fresh_not_allocated _ _ Hl) as Hf.
    assert (<[fresh (dom (heap σ)) := c]> (heap σ) !! l = heap σ !! l) as Hh
      by by apply lookup_insert_ne.
    split; [|done]. unfold isolated. simpl. rewrite Hh.
    repeat split; [done..|]. congruence.
  - split; [|done]. by repeat split.
  - split; [|done]. by repeat split.
  - split; [|done]. unfold isolated. simpl. by destruct c.
  - destruct (GetMap_frame _ _ _ _ l H Hl) as [Hsp Hh].
    by apply isolated_frame.
  - destruct (GetMapWithTimeout_frame _ _ _ _ _ l H Hl) as [Hsp Hh].
    by apply isolated_frame.
  - destruct (GetMapWithTimeout3_frame _ _ _ _ _ _ _ l H Hl) as [Hsp Hh].
    by apply isolated_frame.
Qed.

Lemma live_not_fresh h p l : live h p → h !! l = None → p ≠ Some l.
Proof. intros Hp Hl ->. simpl in Hp. rewrite Hl in Hp. by destruct Hp. Qed.

(** What a getter hands out is a cloud allocated by the call, equal to the
    owned cloud it was copied from, and referred to by no owned pointer. *)
Lemma snapshot_is_copy σ l σ1 :
  wf σ → snapshot σ l σ1 →
  isolated σ1 l ∧
  ∃ lm c, (pPointCloud_ (this σ) = Some lm ∨ pPointCloudUnstable_ (this σ) = Some lm) ∧
          heap σ !! lm = Some c ∧ heap σ1 !! l = Some c ∧ heap σ !! l = None.
Proof.
  intros [Hs Hu] [sch H|sch timeout H|sch args timeout cu out H Hout
                 |sch args timeout out H Hout].
  - unfold GetMap in H. branches H. injection H as -> <-.
    match goal with Hc : copy_or_null _ _ = Some _ |- _ =>
      apply copy_or_null_copy in Hc as (lm & c & Hp & Hlm & Hl & Hnew) end.
    split; [|by eauto 10]. unfold isolated. simpl. rewrite Hl.
    repeat split; [by eauto|by eapply live_not_fresh..].
  - unfold GetMapWithTimeout in H. branches H. injection H as -> <-.
    match goal with Hc : copy_or_null _ _ = Some _ |- _ =>
      apply copy_or_null_copy in Hc as (lm & c & Hp & Hlm & Hl & Hnew) end.
    split; [|by eauto 10]. unfold isolated. simpl. rewrite Hl.
    repeat split; [by eauto|by eapply live_not_fresh..].
  - unfold GetMapWithTimeout3 in H.
    branches H; injection H as <- <-; simpl in Hout; [| |done]; subst.
    + match goal with
      | H1 : copy_or_null (heap σ) _ = Some _,
        H2 : copy_or_null _ _ = Some _ |- _ =>
          pose proof H1 as (lm & c & Hp & Hlm & Hl & Hnew)%copy_or_null_copy;
          assert (is_Some (g !! l)) as Hl' by (by rewrite Hl);
          pose proof (copy_or_null_frame _ _ _ _ _ H2 Hl') as E
      end.
      split; [|exists lm, c; simpl; rewrite E; by eauto 10].
      unfold isolated. simpl. rewrite E, Hl.
      repeat split; [by eauto|by eapply live_not_fresh..].
    + match goal with Hc : copy_or_null _ _ = Some _ |- _ =>
        apply copy_or_null_copy in Hc as (lm & c & Hp & Hlm & Hl & Hnew) end.
      split; [|by eauto 10]. unfold isolated. simpl. rewrite Hl.
      repeat split; [by eauto|by eapply live_not_fresh..].
  - unfold GetMapWithTimeout3 in H.
    branches H; injection H as <- <-; simpl in Hout; [|done]; subst.
    match goal with
    | H1 : copy_or_null (heap σ) _ = Some _,
      H2 : copy_or_null _ _ = Some _ |- _ =>
        pose proof H2 as (lm & c & Hp & Hlm & Hl & Hnew)%copy_or_null_copy;
        pose proof (copy_or_null_frame _ _ _ _ lm H1) as Elm;
        pose proof (copy_or_null_frame _ _ _ _ l H1) as El
    end.
    rewrite Hp in Hu. simpl in Hu. rewrite Elm in Hlm by done.
    assert (heap σ !! l = None) as Hnone.
    { destruct (heap σ !! l) as [c'|] eqn:Hc'; [|done].
      rewrite El in Hnew by eauto. done. }
    split; [|by eauto 10]. unfold isolated. simpl. rewrite Hl.
    repeat split; [by eauto|eapply live_not_fresh; [|done]..].
    + done.
    + by rewrite Hp.
Qed.

(** C2. Take a snapshot with any of the getters in a state whose owned
    pointers are null or alive.  After any sequence of later steps of the
    store (frames merged or dropped, resets, clears, writes through the
    owned pointers, owned pointers re-seated, further snapshots) the
    pointer handed out still holds the cloud the map held when it was
    copied, and neither owned pointer refers to it. *)
Theorem snapshot_isolation σ l σ1 σ2 :
  wf σ → snapshot σ l σ1 → rtc (store_step integrate) σ1 σ2 →
  ∃ lm c,
    (pPointCloud_ (this σ) = Some lm ∨ pPointCloudUnstable_ (this σ) = Some lm) ∧
    heap σ !! lm = Some c ∧ lm ≠ l ∧
    heap σ1 !! l = Some c ∧ heap σ2 !! l = Some c ∧
    pPointCloud_ (this σ2) ≠ Some l ∧ pPointCloudUnstable_ (this σ2) ≠ Some l.
Proof.
  intros Hwf Hsnap Hsteps.
  destruct (snapshot_is_copy _ _ _ Hwf Hsnap) as (Hiso & lm & c & Hp & Hlm & Hl & Hnew).
  assert (isolated σ2 l ∧ heap σ2 !! l = heap σ1 !! l) as [(_ & Hns & Hnu) Hh].
  { clear Hsnap Hl. induction Hsteps as [σ1|σ1 σ' σ2 Hstep Hsteps IH]; [done|].
    destruct (store_step_isolated _ _ l Hstep Hiso) as [Hiso' Hh'].
    destruct (IH Hiso') as [Hiso2 Hh2]. split; [done|congruence]. }
  exists lm, c. repeat split; try done; congruence.
Qed.

(** *** Validity of the owned pointers is kept by every step *)

Lemma insert_keeps h a (c : PointCloudT PointT) l :
  is_Some (h !! l) → is_Some (<[a := c]> h !! l).
Proof.
  intros Hl. destruct (decide (a = l)) as [->|Hne].
  - rewrite lookup_insert_eq. by eauto.
  - by rewrite lookup_insert_ne.
Qed.

Lemma clear_at_keeps p h l : is_Some (h !! l) → is_Some (clear_at p h !! l).
Proof.
  destruct p as [lm|]; [|done]. simpl. intros [c Hc].
  rewrite lookup_alter. case_decide; simplify_eq; rewrite Hc; by eexists.
Qed.

Lemma wf_mono σ σ' :
  same_pointers σ σ' →
  (∀ l, is_Some (heap σ !! l) → is_Some (heap σ' !! l)) →
  wf σ → wf σ'.
Proof.
  intros [Hs Hu] Hmono [Hls Hlu]. unfold wf. rewrite Hs, Hu.
  split; [destruct (pPointCloud_ (this σ))|destruct (pPointCloudUnstable_ (this σ))];
    simpl in *; by eauto.
Qed.

Lemma ingest_keeps sch f σ b σ' l :
  ingest integrate sch f σ = Returns b σ' →
  is_Some (heap σ !! l) → is_Some (heap σ' !! l).
Proof.
  unfold ingest. intros H Hl. branches H; try by injection H as <- <-.
  match goal with Hu : UpdateMapTimestamp _ = Some _ |- _ =>
    apply UpdateMapTimestamp_inv in Hu as (lm & cm & Hp & Hc & Hh & Ht) end.
  injection H as <- <-. simpl in *. rewrite Hh.
  by do 3 apply insert_keeps.
Qed.

Lemma ingest_same_pointers sch f σ b σ' :
  ingest integrate sch f σ = Returns b σ' → same_pointers σ σ'.
Proof.
  unfold ingest. intros H. branches H; try by injection H as <- <-.
  match goal with Hu : UpdateMapTimestamp _ = Some _ |- _ =>
    apply UpdateMapTimestamp_inv in Hu as (lm & cm & Hp & Hc & Hh & Ht) end.
  injection H as <- <-. unfold same_pointers. simpl. by rewrite Ht.
Qed.

(** From a state whose owned pointers are null or alive the store only
    reaches such states. *)
Lemma store_step_wf σ σ' : store_step integrate σ σ' → wf σ → wf σ'.
Proof.
  intros Hstep Hwf. pose proof Hwf as [Hls Hlu].
  destruct Hstep as
    [sch f σ b σ' H|σ|sch σ σ' H|σ lm c Hp|σ lm c Hp|σ c|σ c|σ|σ|c σ
    |sch σ p σ' H|sch timeout σ p σ' H|sch args timeout cu σ out σ' H].
  - apply (wf_mono σ); [by eapply ingest_same_pointers| |done].
    intros l. by eapply ingest_keeps.
  - apply (wf_mono σ); [done| |done]. intros l Hl. simpl. by do 2 apply clear_at_keeps.
  - unfold Clear in H. branches H. injection H as <-.
    apply (wf_mono σ); [done| |done]. intros l Hl. simpl. by do 2 apply clear_at_keeps.
  - apply (wf_mono σ); [done| |done]. intros l Hl. by apply insert_keeps.
  - apply (wf_mono σ); [done| |done]. intros l Hl. by apply insert_keeps.
  - split; simpl.
    + rewrite lookup_insert_eq. by eauto.
    + destruct (pPointCloudUnstable_ (this σ)); [|done]. by apply insert_keeps.
  - split; simpl.
    + destruct (pPointCloud_ (this σ)); [|done]. by apply insert_keeps.
    + rewrite lookup_insert_eq. by eauto.
  - by split.
  - by split.
  - apply (wf_mono σ); [|by eauto|done]. by destruct c.
  - apply (wf_mono σ); [|intros l Hl|done].
    + unfold GetMap in H. by branches H; injection H as <- <-.
    + by destruct (GetMap_frame _ _ _ _ l H Hl) as [_ ->].
  - apply (wf_mono σ); [|intros l Hl|done].
    + unfold GetMapWithTimeout in H. by branches H; injection H as <- <-.
    + by destruct (GetMapWithTimeout_frame _ _ _ _ _ l H Hl) as [_ ->].
  - apply (wf_mono σ); [|intros l Hl|done].
    + unfold GetMapWithTimeout3 in H. by branches H; injection H as <- <-.
    + by destruct (GetMapWithTimeout3_frame _ _ _ _ _ _ _ l H Hl) as [_ ->].
Qed.

(** *** Reset *)

Lemma clear_at_twice p q h :
  clear_at q (clear_at p (clear_at q (clear_at p h))) = clear_at q (clear_at p h).
Proof.
  apply map_eq. intros k.
  destruct p as [lp|], q as [lq|]; simpl; rewrite ?lookup_alter;
    repeat case_decide; try done;
    match goal with |- context [h !! ?j] => by destruct (h !! j) end.
Qed.

Lemma ResetPointCloud_stable σ :
  stable_cloud (ResetPointCloud σ) = clear_cloud <$> stable_cloud σ.
Proof.
  unfold stable_cloud, ResetPointCloud. simpl.
  destruct (pPointCloud_ (this σ)) as [ls|]; [|done].
  destruct (pPointCloudUnstable_ (this σ)) as [lu|]; simpl;
    rewrite ?lookup_alter; repeat case_decide; simplify_eq; try done;
    match goal with |- context [heap σ !! ?j] => by destruct (heap σ !! j) end.
Qed.

Lemma ResetPointCloud_unstable σ :
  unstable_cloud (ResetPointCloud σ) = clear_cloud <$> unstable_cloud σ.
Proof.
  unfold unstable_cloud, ResetPointCloud. simpl.
  destruct (pPointCloudUnstable_ (this σ)) as [lu|]; [|done].
  destruct (pPointCloud_ (this σ)) as [ls|]; simpl;
    rewrite ?lookup_alter; repeat case_decide; simplify_eq; try done;
    match goal with |- context [heap σ !! ?j] => by destruct (heap σ !! j) end.
Qed.

(** C6. [ResetPointCloud] run twice leaves exactly the state it leaves when
    run once.  In that state the owned pointers are those of before and a
    cloud stands behind each exactly where one stood before; every such
    cloud has no points, width and height zero and a zero stamp; and the
    last timestamp is zero. *)
Theorem ResetPointCloud_idempotent σ :
  ResetPointCloud (ResetPointCloud σ) = ResetPointCloud σ ∧
  same_pointers σ (ResetPointCloud σ) ∧
  lastTimestamp_ (this (ResetPointCloud σ)) = 0%N ∧
  (is_Some (stable_cloud (ResetPointCloud σ)) ↔ is_Some (stable_cloud σ)) ∧
  (is_Some (unstable_cloud (ResetPointCloud σ)) ↔ is_Some (unstable_cloud σ)) ∧
  (∀ c, stable_cloud (ResetPointCloud σ) = Some c ∨
        unstable_cloud (ResetPointCloud σ) = Some c →
        points c = [] ∧ width c = 0%N ∧ height c = 0%N ∧
        stamp (header c) = 0%N).
Proof.
  split; [|split; [done|split; [done|]]].
  - unfold ResetPointCloud. simpl. f_equal. apply clear_at_twice.
  - rewrite ResetPointCloud_stable, ResetPointCloud_unstable.
    split; [apply fmap_is_Some|]. split; [apply fmap_is_Some|].
    intros c [Hc|Hc]; apply fmap_Some in Hc as (c0 & _ & ->); done.
Qed.

(** [Clear], once it has returned, changes nothing when the same thread
    calls it again. *)
Lemma Clear_idempotent sch σ σ1 :
  Clear sch σ = Returns () σ1 → Clear sch σ1 = Returns () σ1.
Proof.
  unfold Clear. intros H. branches H. injection H as <-.
  match goal with Hl : lock _ _ = Some ?r |- _ => rename Hl into Hlock; rename r into lck end.
  assert (∃ lck', lock sch (unlock lck) = Some lck' ∧ unlock lck' = unlock lck)
    as (lck' & Hl' & Hu').
  { unfold lock in *. destruct (pointCloudMutex_ (this σ)) as [|o n].
    - injection Hlock as <-. simpl. by eauto.
    - destruct (decide (o = self sch)) as [->|].
      + injection Hlock as <-. simpl. rewrite decide_True by done. by eauto.
      + destruct (release_after sch); [|done]. injection Hlock as <-.
        simpl. by eauto. }
  simpl. rewrite Hl'. f_equal. unfold leave. simpl.
  f_equal; [|by rewrite Hu']. by rewrite clear_at_twice.
Qed.

(** *** Configuration *)

Lemma configure_snoc calls c t :
  configure (calls ++ [c]) t = apply_setter c (configure calls t).
Proof. unfold configure. by rewrite fold_left_app. Qed.

Lemma last_arg_snoc {A} (pick : setter_call → option A) calls c (dflt : A) :
  last_arg pick (calls ++ [c]) dflt = default (last_arg pick calls dflt) (pick c).
Proof. unfold last_arg. by rewrite fold_left_app. Qed.

(** C5 (as the code has it). The two on-map-change flags are set
    independently: after any sequence of setter calls each flag is the
    argument of the last call of its own setter, or its initial value when
    there was none.  Nothing keeps them from being enabled together. *)
Theorem map_change_flags_independent calls t :
  bResetOnSparseMapChange_ (configure calls t)
    = last_arg reset_arg calls (bResetOnSparseMapChange_ t) ∧
  bCloudDeformationOnSparseMapChange_ (configure calls t)
    = last_arg kf_adjustment_arg calls (bCloudDeformationOnSparseMapChange_ t).
Proof.
  induction calls as [|c calls [IHr IHk]] using rev_ind; [done|].
  rewrite configure_snoc, !last_arg_snoc, <- IHr, <- IHk.
  by destruct c.
Qed.

Lemma configure_downsample calls t :
  nDownsampleStep_ (configure calls t)
    = last_arg downsample_arg calls (nDownsampleStep_ t).
Proof.
  induction calls as [|c calls IH] using rev_ind; [done|].
  rewrite configure_snoc, last_arg_snoc, <- IH. by destruct c.
Qed.

(** C8 (as the code has it). [SetDownsampleStep] stores its argument
    unchecked.  The stored stride is at least one in every state reached
    from a stride of at least one by setter calls that never pass
    [SetDownsampleStep] a value below one; it is then the argument of the
    last such call. *)
Theorem downsample_step_positive calls t :
  1 ≤ nDownsampleStep_ t →
  forallb stride_ok calls = true →
  1 ≤ nDownsampleStep_ (configure calls t) ∧
  nDownsampleStep_ (configure calls t)
    = last_arg downsample_arg calls (nDownsampleStep_ t).
Proof.
  intros Ht Hcalls. split; [|apply configure_downsample].
  induction calls as [|c calls IH] using rev_ind; [done|].
  rewrite forallb_app in Hcalls. apply andb_prop in Hcalls as [Hcalls Hc].
  simpl in Hc. rewrite andb_true_r in Hc. specialize (IH Hcalls).
  rewrite configure_snoc. unfold stride_ok in Hc.
  destruct c; simpl in *; try done. lia.
Qed.

(** ** Further properties of the getters *)

Lemma lock_available sch m :
  available sch m = true →
  ∃ lck, lock sch m = Some lck ∧
         (∀ timeout, try_lock_for sch timeout m = Some lck) ∧ unlock lck = m.
Proof.
  unfold available, lock, try_lock_for. destruct m as [|o n]; [by eauto|].
  intros Ho%bool_decide_eq_true. exists (LockedBy o (S n)).
  repeat split; [|intros timeout]; by rewrite decide_True.
Qed.

Lemma held_depth_unlock_lock sch m lck :
  lock sch m = Some lck →
  held_depth (self sch) (unlock lck) = held_depth (self sch) m.
Proof.
  unfold lock, held_depth. destruct m as [|o n].
  - by intros [= <-].
  - destruct (decide (o = self sch)) as [->|Hne].
    + intros [= <-]. simpl. by rewrite decide_True.
    + destruct (release_after sch); [|done]. by intros [= <-].
Qed.

Lemma apply_setter_frame c t :
  pointCloudMutex_ (apply_setter c t) = pointCloudMutex_ t ∧
  pPointCloud_ (apply_setter c t) = pPointCloud_ t ∧
  pPointCloudUnstable_ (apply_setter c t) = pPointCloudUnstable_ t ∧
  lastTimestamp_ (apply_setter c t) = lastTimestamp_ t.
Proof. by destruct c. Qed.

(** A getter that returns has at most changed the mutex member, and has
    left every cloud that existed where and as it was. *)
Lemma run_call_shape sch call σ σ' :
  run_call sch call σ = Some σ' →
  ((∃ lck, lock sch (pointCloudMutex_ (this σ)) = Some lck ∧
           pointCloudMutex_ (this σ') = unlock lck)
   ∨ pointCloudMutex_ (this σ') = pointCloudMutex_ (this σ)) ∧
  same_pointers σ σ' ∧
  lastTimestamp_ (this σ') = lastTimestamp_ (this σ) ∧
  (∀ l, is_Some (heap σ !! l) → heap σ' !! l = heap σ !! l).
Proof.
  destruct call as [|timeout|args timeout cu| |c|]; simpl; intros H.
  - unfold GetMap in H. branches H. injection H as <-.
    split; [by eauto|]. split; [done|]. split; [done|]. simpl. intros l Hl.
    by eapply copy_or_null_frame.
  - unfold GetMapWithTimeout in H. branches H; injection H as <-.
    + split; [by eauto using try_lock_for_lock|]. split; [done|]. split; [done|].
      simpl. intros l Hl. by eapply copy_or_null_frame.
    + split; [by right|]. by split.
  - unfold GetMapWithTimeout3 in H. branches H; injection H as <-.
    + split; [by eauto using try_lock_for_lock|]. split; [done|]. split; [done|].
      simpl. intros l Hl.
      match goal with
      | H1 : copy_or_null (heap σ) _ = Some _,
        H2 : copy_or_null _ _ = Some _ |- _ =>
          pose proof (copy_or_null_frame _ _ _ _ _ H1 Hl) as E1;
          rewrite <- E1 in Hl;
          pose proof (copy_or_null_frame _ _ _ _ _ H2 Hl) as E2
      end.
      congruence.
    + split; [by eauto using try_lock_for_lock|]. split; [done|]. split; [done|].
      simpl. intros l Hl. by eapply copy_or_null_frame.
    + split; [by right|]. by split.
  - unfold GetMapTimestamp in H. branches H. injection H as <-.
    split; [by eauto|]. by split.
  - injection H as <-. destruct (apply_setter_frame c (this σ)) as (Hm & Hs & Hu & Ht).
    split; [by right|]. by split.
  - injection H as <-. split; [by right|]. by split.
Qed.

(** X1. A [GetMap] that returns [p] has allocated exactly the cloud behind
    [p] (none when [p] is null), at a place where no cloud was; that cloud is
    the stored stable cloud; every cloud that existed is unchanged; and of
    the members of the object only the mutex can differ. *)
Theorem GetMap_footprint sch σ p σ' :
  GetMap sch σ = Returns p σ' →
  dom (heap σ') = allocated_by p ∪ dom (heap σ) ∧
  allocated_by p ## dom (heap σ) ∧
  (∀ l, p = Some l → heap σ' !! l = stable_cloud σ) ∧
  (∀ l, is_Some (heap σ !! l) → heap σ' !! l = heap σ !! l) ∧
  this σ' = with_mutex (pointCloudMutex_ (this σ')) (this σ).
Proof.
  unfold GetMap. intros H. branches H. injection H as ? ?. subst p σ'. simpl.
  match goal with Hc : copy_or_null _ _ = Some _ |- _ =>
    pose proof Hc as [(Hp & ? & ?)|(lm & c & Hp & Hlm & ? & ?)]%copy_or_null_inv;
    rename Hc into Hcopy end; subst.
  - simpl. split; [by rewrite (left_id_L ∅ (∪))|]. split; [apply disjoint_empty_l|].
    by repeat split.
  - pose proof (is_fresh (dom (heap σ))) as Hf. simpl.
    repeat split.
    + by rewrite dom_insert_L.
    + set_solver.
    + intros l [= <-]. unfold stable_cloud. by rewrite lookup_insert_eq, Hp.
    + intros l Hl. by eapply copy_or_null_frame.
Qed.

(** X2. A [GetMapWithTimeout] that gets the mutex within its timeout does
    exactly what the blocking [GetMap] does. *)
Theorem GetMapWithTimeout_acquired sch timeout σ lck :
  try_lock_for sch timeout (pointCloudMutex_ (this σ)) = Some lck →
  GetMapWithTimeout sch timeout σ = GetMap sch σ.
Proof.
  intros Ht. unfold GetMapWithTimeout, GetMap.
  by rewrite Ht, (try_lock_for_lock _ _ _ _ Ht).
Qed.

(** The references apart, the call is the one on values: with two different
    variables behind [pCloud] and [pCloudUnstable] the caller finds in them
    the outputs of [GetMapWithTimeout3]. *)
Lemma GetMapWithTimeout3_refs_distinct sch r1 r2 timeout copyUnstable
    (vars : gmap var Ptr) fs σ a b :
  r1 ≠ r2 → vars !! r1 = Some a → vars !! r2 = Some b →
  GetMapWithTimeout3_refs sch r1 r2 timeout copyUnstable vars fs σ
    = outcome_map
        (λ out, (<[r2 := pCloudUnstable out]> (<[r1 := pCloud out]> vars), faces out))
        (GetMapWithTimeout3 sch {| pCloud := a; pCloudUnstable := b; faces := fs |}
           timeout copyUnstable σ).
Proof.
  intros Hne Ha Hb. unfold GetMapWithTimeout3_refs, GetMapWithTimeout3.
  destruct (try_lock_for _ _ _) as [lck|]; [|done].
  destruct (copy_or_null _ _) as [[h1 pc]|]; [|done].
  destruct copyUnstable.
  - by destruct (copy_or_null _ _) as [[h2 pu]|].
  - simpl. do 2 f_equal. symmetry. apply insert_id.
    by rewrite lookup_insert_ne.
Qed.

(** X3. With the mutex acquired and [copyUnstable] false, the three-output
    overload writes one pointer variable only, the one behind [pCloud], with
    the pointer the single-output overload returns; it leaves the state that
    overload leaves and [faces] empty.  The variable behind [pCloudUnstable]
    is not written: it keeps what the caller had in it, unless it is the
    variable behind [pCloud] itself. *)
Theorem GetMapWithTimeout3_without_unstable sch r_pCloud r_pCloudUnstable
    timeout (vars : gmap var Ptr) fs σ lck :
  try_lock_for sch timeout (pointCloudMutex_ (this σ)) = Some lck →
  GetMapWithTimeout3_refs sch r_pCloud r_pCloudUnstable timeout false vars fs σ
    = outcome_map (λ p, (<[r_pCloud := p]> vars, []))
        (GetMapWithTimeout sch timeout σ).
Proof.
  intros Ht. unfold GetMapWithTimeout3_refs, GetMapWithTimeout. rewrite Ht.
  by destruct (copy_or_null _ _) as [[h p]|].
Qed.

(** X4. With the mutex acquired, [copyUnstable] true and a cloud behind each
    owned pointer, the three-output overload makes two different new clouds,
    a copy of the stable and a copy of the unstable cloud, even when the two
    owned pointers are the same.  The variable behind [pCloudUnstable] ends
    up with the unstable copy, and the one behind [pCloud] with the stable
    copy, unless the caller passed one variable for both: that variable then
    holds the unstable copy, the later assignment.  No other variable of the
    caller is written. *)
Theorem GetMapWithTimeout3_two_copies sch r_pCloud r_pCloudUnstable timeout
    (vars : gmap var Ptr) fs σ lck :
  try_lock_for sch timeout (pointCloudMutex_ (this σ)) = Some lck →
  is_Some (stable_cloud σ) → is_Some (unstable_cloud σ) →
  ∃ l1 l2 vars' σ',
    GetMapWithTimeout3_refs sch r_pCloud r_pCloudUnstable timeout true vars fs σ
      = Returns (vars', []) σ' ∧
    l1 ≠ l2 ∧ heap σ !! l1 = None ∧ heap σ !! l2 = None ∧
    heap σ' !! l1 = stable_cloud σ ∧ heap σ' !! l2 = unstable_cloud σ ∧
    vars' !! r_pCloudUnstable = Some (Some l2) ∧
    vars' !! r_pCloud
      = Some (Some (if decide (r_pCloud = r_pCloudUnstable) then l2 else l1)) ∧
    (∀ r, r ≠ r_pCloud → r ≠ r_pCloudUnstable → vars' !! r = vars !! r).
Proof.
  unfold stable_cloud, unstable_cloud, GetMapWithTimeout3_refs.
  intros -> [cs Hs] [cu Hu].
  destruct (pPointCloud_ (this σ)) as [ls|]; [|done].
  destruct (pPointCloudUnstable_ (this σ)) as [lu|]; [|done].
  set (l1 := fresh (dom (heap σ))).
  set (h1 := <[l1 := cs]> (heap σ)).
  set (l2 := fresh (dom h1)).
  assert (heap σ !! l1 = None) as Hl1 by apply not_elem_of_dom, is_fresh.
  assert (h1 !! l2 = None) as Hl2 by apply not_elem_of_dom, is_fresh.
  assert (l1 ≠ lu) as Hne1 by (intros Heq; congruence).
  assert (l1 ≠ l2) as Hne2.
  { intros Heq. unfold h1 in Hl2. rewrite <- Heq, lookup_insert_eq in Hl2. done. }
  assert (h1 !! lu = Some cu) as Hu1 by (unfold h1; by rewrite lookup_insert_ne).
  exists l1, l2, (<[r_pCloudUnstable := Some l2]> (<[r_pCloud := Some l1]> vars)),
    (leave (<[l2 := cu]> h1) lck σ). split.
  { unfold copy_or_null, makeShared. rewrite Hs. fold l1 h1. rewrite Hu1. done. }
  unfold h1 in Hl2. rewrite lookup_insert_ne in Hl2 by done.
  split; [done|]. split; [done|]. split; [done|]. simpl. unfold h1.
  rewrite lookup_insert_eq, lookup_insert_ne, lookup_insert_eq by done.
  rewrite Hs, Hu. split; [done|]. split; [done|].
  split; [by rewrite lookup_insert_eq|]. split.
  - case_decide as Hr.
    + by rewrite Hr, lookup_insert_eq.
    + by rewrite lookup_insert_ne, lookup_insert_eq.
  - intros r Hr1 Hr2. by rewrite !lookup_insert_ne.
Qed.

(** X5. Whatever call of the interface a thread makes, once the call has
    returned the thread holds the mutex exactly as many times as before. *)
Theorem lock_balance sch call σ σ' :
  run_call sch call σ = Some σ' →
  held_depth (self sch) (pointCloudMutex_ (this σ'))
    = held_depth (self sch) (pointCloudMutex_ (this σ)).
Proof.
  intros [[(lck & Hl & ->) | ->] _]%run_call_shape; [|done].
  by apply held_depth_unlock_lock.
Qed.

(** X6. A thread that finds the mutex free, or that already owns it, is
    never kept waiting: in a state whose owned pointers are null or alive
    each of its calls returns ([GetMapTimestamp] needs the stable cloud to
    exist) and leaves the mutex exactly as it was. *)
Theorem reentrant_call_returns sch call σ :
  available sch (pointCloudMutex_ (this σ)) = true →
  wf σ →
  (call = DoGetMapTimestamp → is_Some (stable_cloud σ)) →
  ∃ σ', run_call sch call σ = Some σ' ∧
        pointCloudMutex_ (this σ') = pointCloudMutex_ (this σ).
Proof.
  intros (lck & Hl & Ht & Hu)%lock_available [Hs Hv] Hstamp.
  destruct call as [|timeout|args timeout cu| |c|]; simpl.
  - unfold GetMap. rewrite Hl.
    destruct (copy_or_null_live _ _ Hs) as (h & p & ->). simpl. by eauto.
  - unfold GetMapWithTimeout. rewrite Ht.
    destruct (copy_or_null_live _ _ Hs) as (h & p & ->). simpl. by eauto.
  - unfold GetMapWithTimeout3. rewrite Ht.
    destruct (copy_or_null_live _ _ Hs) as (h1 & pc & Hc1). rewrite Hc1.
    destruct cu; [|simpl; by eauto].
    pose proof (copy_or_null_live_mono _ _ _ _ _ Hc1 Hv) as Hv1.
    destruct (copy_or_null_live _ _ Hv1) as (h2 & pu & ->). simpl. by eauto.
  - unfold GetMapTimestamp, stable_cloud in *. rewrite Hl.
    destruct (Hstamp eq_refl) as [c Hc].
    destruct (pPointCloud_ (this σ)) as [l|]; [|done]. rewrite Hc. simpl. by eauto.
  - eexists. split; [done|]. simpl. by destruct c.
  - by eauto.
Qed.

Lemma GetMap_inv sch σ l σ' :
  GetMap sch σ = Returns (Some l) σ' →
  ∃ lm c, pPointCloud_ (this σ) = Some lm ∧ heap σ !! lm = Some c ∧
          heap σ !! l = None ∧ heap σ' = <[l := c]> (heap σ) ∧
          same_pointers σ σ'.
Proof.
  unfold GetMap. intros H. branches H. injection H as ? ?. subst.
  match goal with Hc : copy_or_null _ _ = Some _ |- _ =>
    apply copy_or_null_inv in Hc as [(? & ? & ?)|(lm & c & Hp & Hlm & Hl & ->)] end;
    [done|].
  injection Hl as ->. exists lm, c.
  repeat split; try done. apply not_elem_of_dom, is_fresh.
Qed.

(** X7. Two snapshots taken one after the other, with nothing in between,
    are two different clouds, each equal to the stored stable cloud. *)
Theorem snapshots_never_alias sch sch' σ l1 σ1 l2 σ2 :
  GetMap sch σ = Returns (Some l1) σ1 →
  GetMap sch' σ1 = Returns (Some l2) σ2 →
  l1 ≠ l2 ∧ is_Some (stable_cloud σ) ∧
  heap σ2 !! l1 = stable_cloud σ ∧ heap σ2 !! l2 = stable_cloud σ.
Proof.
  intros (lm & c & Hp & Hlm & Hl1 & Hh1 & [Hs1 _])%GetMap_inv
         (lm' & c' & Hp' & Hlm' & Hl2 & Hh2 & _)%GetMap_inv.
  rewrite Hs1, Hp in Hp'. injection Hp' as <-.
  assert (lm ≠ l1) as Hne by congruence.
  rewrite Hh1, lookup_insert_ne, Hlm in Hlm' by done. injection Hlm' as <-.
  assert (l1 ≠ l2) as Hne2.
  { intros <-. by rewrite Hh1, lookup_insert_eq in Hl2. }
  unfold stable_cloud. rewrite Hp, Hlm, Hh2, Hh1.
  split; [done|]. split; [by eauto|].
  by rewrite lookup_insert_ne, !lookup_insert_eq.
Qed.

(** X8. The timestamp read after a snapshot was taken, with no write in
    between, is the stamp the snapshot carries. *)
Theorem snapshot_carries_timestamp sch sch' σ l σ1 lck :
  GetMap sch σ = Returns (Some l) σ1 →
  lock sch' (pointCloudMutex_ (this σ1)) = Some lck →
  ∃ c, heap σ1 !! l = Some c ∧
       GetMapTimestamp sch' σ1
         = Returns (stamp (header c)) (leave (heap σ1) lck σ1).
Proof.
  intros (lm & c & Hp & Hlm & Hl & Hh & [Hs _])%GetMap_inv Hlock.
  assert (lm ≠ l) as Hne by congruence.
  exists c. split; [by rewrite Hh, lookup_insert_eq|].
  apply GetMapTimestamp_live with lm; [done|congruence|].
  by rewrite Hh, lookup_insert_ne.
Qed.

(** X9. The getters and setters of the header only read the map: over any
    sequence of such calls by any threads, starting where the owned pointers
    are null or alive, the owned pointers, the two stored clouds, the last
    timestamp and every cloud already handed out stay as they were. *)
Theorem interface_read_only calls σ σ' :
  wf σ → run_calls calls σ = Some σ' →
  wf σ' ∧ same_pointers σ σ' ∧
  stable_cloud σ' = stable_cloud σ ∧ unstable_cloud σ' = unstable_cloud σ ∧
  lastTimestamp_ (this σ') = lastTimestamp_ (this σ) ∧
  (∀ l, is_Some (heap σ !! l) → heap σ' !! l = heap σ !! l).
Proof.
  intros Hwf Hrun.
  assert (same_pointers σ σ' ∧ lastTimestamp_ (this σ') = lastTimestamp_ (this σ) ∧
          (∀ l, is_Some (heap σ !! l) → heap σ' !! l = heap σ !! l))
    as ([Hs Hu] & Ht & Hframe).
  { clear Hwf. revert σ Hrun.
    induction calls as [|[sch call] calls IH]; intros σ Hrun; simpl in Hrun.
    - by injection Hrun as <-.
    - destruct (run_call sch call σ) as [σ1|] eqn:Hcall; [|done].
      apply run_call_shape in Hcall as (_ & [Hs1 Hu1] & Ht1 & Hf1).
      destruct (IH _ Hrun) as ([Hs2 Hu2] & Ht2 & Hf2).
      split; [split; congruence|]. split; [congruence|].
      intros l Hl. rewrite <- (Hf1 l Hl). apply Hf2. by rewrite (Hf1 l Hl). }
  assert (wf σ') as Hwf'.
  { apply (wf_mono σ); [done| |done]. intros l Hl. by rewrite Hframe. }
  split; [done|]. split; [done|]. destruct Hwf as [Hls Hlu].
  unfold stable_cloud, unstable_cloud. rewrite Hs, Hu.
  split; [|split; [|done]].
  - destruct (pPointCloud_ (this σ)) as [l|]; [|done]. by apply Hframe.
  - destruct (pPointCloudUnstable_ (this σ)) as [l|]; [|done]. by apply Hframe.
Qed.

(** ** Further properties of the setters *)

Lemma last_arg_absorbs {A} (pick : setter_call → option A) calls (dflt : A) :
  last_arg pick calls (last_arg pick calls dflt) = last_arg pick calls dflt.
Proof.
  assert ((∀ d, last_arg pick calls d = d) ∨ (∃ v, ∀ d, last_arg pick calls d = v))
    as [Hid|[v Hv]].
  { induction calls as [|c calls IH] using rev_ind; [by left|].
    destruct (pick c) as [v|] eqn:Hc.
    - right. exists v. intros d. by rewrite last_arg_snoc, Hc.
    - destruct IH as [Hid|[v Hv]]; [left|right; exists v]; intros d;
        rewrite last_arg_snoc, Hc; simpl; [apply Hid|apply Hv]. }
  - by rewrite !Hid.
  - by rewrite !Hv.
Qed.

(** X10. After any sequence of setter calls every settable member holds the
    argument of the last call of its own setter, or its old value when there
    was none, and every other member is untouched; so replaying the sequence
    changes nothing. *)
Theorem configure_characterised calls t :
  configure calls t =
  {| resolution_ := resolution_ t;
     bResetOnSparseMapChange_ :=
       last_arg reset_arg calls (bResetOnSparseMapChange_ t);
     bCloudDeformationOnSparseMapChange_ :=
       last_arg kf_adjustment_arg calls (bCloudDeformationOnSparseMapChange_ t);
     pointCloudMutex_ := pointCloudMutex_ t;
     pPointCloud_ := pPointCloud_ t;
     pPointCloudUnstable_ := pPointCloudUnstable_ t;
     lastTimestamp_ := lastTimestamp_ t;
     nDownsampleStep_ := last_arg downsample_arg calls (nDownsampleStep_ t);
     bMapUpdated_ := bMapUpdated_ t;
     bRemoveUnstablePoints_ :=
       last_arg remove_unstable_arg calls (bRemoveUnstablePoints_ t);
     bPerformSegmentation_ :=
       last_arg segmentation_arg calls (bPerformSegmentation_ t);
     bPerformCarving_ := last_arg carving_arg calls (bPerformCarving_ t);
     minCosForNormalAssociation_ :=
       last_arg min_cos_arg calls (minCosForNormalAssociation_ t) |} ∧
  configure calls (configure calls t) = configure calls t.
Proof.
  assert (∀ u, configure calls u =
    {| resolution_ := resolution_ u;
       bResetOnSparseMapChange_ :=
         last_arg reset_arg calls (bResetOnSparseMapChange_ u);
       bCloudDeformationOnSparseMapChange_ :=
         last_arg kf_adjustment_arg calls (bCloudDeformationOnSparseMapChange_ u);
       pointCloudMutex_ := pointCloudMutex_ u;
       pPointCloud_ := pPointCloud_ u;
       pPointCloudUnstable_ := pPointCloudUnstable_ u;
       lastTimestamp_ := lastTimestamp_ u;
       nDownsampleStep_ := last_arg downsample_arg calls (nDownsampleStep_ u);
       bMapUpdated_ := bMapUpdated_ u;
       bRemoveUnstablePoints_ :=
         last_arg remove_unstable_arg calls (bRemoveUnstablePoints_ u);
       bPerformSegmentation_ :=
         last_arg segmentation_arg calls (bPerformSegmentation_ u);
       bPerformCarving_ := last_arg carving_arg calls (bPerformCarving_ u);
       minCosForNormalAssociation_ :=
         last_arg min_cos_arg calls (minCosForNormalAssociation_ u) |}) as Hfields.
  { induction calls as [|c calls IH] using rev_ind; intros u; [by destruct u|].
    rewrite configure_snoc, IH, !last_arg_snoc. by destruct c. }
  split; [apply Hfields|].
  rewrite (Hfields (configure calls t)), (Hfields t). simpl.
  by rewrite !last_arg_absorbs.
Qed.

(** X11. Two setter calls that do not write one and the same member can be
    made in either order; so can, in particular, any two calls of which one
    or both are virtual setters with an empty body. *)
Theorem setters_commute c1 c2 t :
  write_same_member c1 c2 = false →
  apply_setter c1 (apply_setter c2 t) = apply_setter c2 (apply_setter c1 t).
Proof. by destruct c1, c2. Qed.

(** X12. Of two setter calls that write the same member the later one
    wins. *)
Theorem setter_overwrites c1 c2 t :
  target c1 = target c2 →
  apply_setter c1 (apply_setter c2 t) = apply_setter c1 t.
Proof. by destruct c1, c2. Qed.

(** ** Timeouts *)

Lemma wrap64_small z : - 2 ^ 63 ≤ z < 2 ^ 63 → wrap64 z = z.
Proof. intros Hz. unfold wrap64. rewrite Z.mod_small; lia. Qed.

Lemma deadline_representable sch timeout :
  representable sch timeout = true →
  deadline sch timeout = clock_now sch + timeout * 1000000.
Proof.
  unfold representable, deadline. rewrite !andb_true_iff.
  intros [[[H1 H2] H3] H4].
  apply Z.leb_le in H1, H3. apply Z.ltb_lt in H2, H4.
  rewrite (wrap64_small (timeout * 1000000)) by lia.
  apply wrap64_small. lia.
Qed.

Lemma try_lock_for_mono sch timeout timeout' m lck :
  timeout ≤ timeout' →
  representable sch timeout = true → representable sch timeout' = true →
  try_lock_for sch timeout m = Some lck → try_lock_for sch timeout' m = Some lck.
Proof.
  unfold try_lock_for. intros Hle Hr Hr'. destruct m as [|o n]; [done|].
  case_decide; [done|]. destruct (release_after sch) as [d|]; [|done].
  rewrite !deadline_representable by done.
  repeat case_decide; try done. lia.
Qed.

(** X13. A timed getter that gets the mutex within [timeout] returns the
    same outputs and leaves the same state when it is given a longer
    timeout, as long as the deadlines of both timeouts fit the 64-bit
    nanosecond clock.  (A timeout whose deadline wraps around, such as the
    largest millisecond count, can fail where a short one succeeds.) *)
Theorem longer_timeout_same_result sch timeout timeout' args copyUnstable σ lck :
  timeout ≤ timeout' →
  representable sch timeout = true → representable sch timeout' = true →
  try_lock_for sch timeout (pointCloudMutex_ (this σ)) = Some lck →
  GetMapWithTimeout sch timeout' σ = GetMapWithTimeout sch timeout σ ∧
  GetMapWithTimeout3 sch args timeout' copyUnstable σ
    = GetMapWithTimeout3 sch args timeout copyUnstable σ.
Proof.
  intros Hle Hr Hr' Ht.
  pose proof (try_lock_for_mono _ _ _ _ _ Hle Hr Hr' Ht) as Ht'.
  unfold GetMapWithTimeout, GetMapWithTimeout3. by rewrite Ht, Ht'.
Qed.

End Properties.

(** ** The properties at work on [PointCloudMap<pcl::PointXYZRGBA>] *)

Section Instances.

Import Examples.

(** A reader that finds the mutex held for good by the ingestion thread
    gets null outputs and leaves [busy] as it is. *)
Lemma GetMapWithTimeout_timed_out_witness :
  GetMapWithTimeout3 starved stale_outputs 10 true busy
    = Returns {| pCloud := None; pCloudUnstable := None; faces := [] |} busy ∧
  GetMapWithTimeout starved 10 busy = Returns None busy.
Proof.
  apply (GetMapWithTimeout_timed_out (PointT := PointXYZRGBA)).
  reflexivity.
Defined.

(** The snapshot taken from [mapping] outlives a merge and a reset. *)
Lemma snapshot_isolation_witness :
  ∃ lm c,
    (pPointCloud_ (this mapping) = Some lm ∨
     pPointCloudUnstable_ (this mapping) = Some lm) ∧
    heap mapping !! lm = Some c ∧ lm ≠ 3%positive ∧
    heap after_GetMap !! 3%positive = Some c ∧
    heap after_reset !! 3%positive = Some c ∧
    pPointCloud_ (this after_reset) ≠ Some 3%positive ∧
    pPointCloudUnstable_ (this after_reset) ≠ Some 3%positive.
Proof.
  apply (snapshot_isolation promote_all mapping 3%positive after_GetMap after_reset).
  - split; vm_compute; eauto.
  - apply snap_GetMap with starved. vm_compute. reflexivity.
  - apply rtc_l with after_merge.
    + apply step_ingest with starved first_frame true.
      vm_compute. reflexivity.
    + apply rtc_once, step_reset.
Defined.


(** C4 (evaluation at the failing state). With no cloud allocated,
    [GetMapTimestamp] dereferences the null pointer, where [GetMap] on the
    same state returns null. *)
Theorem GetMapTimestamp_unallocated :
  GetMapTimestamp starved unallocated = Undefined ∧
  GetMap starved unallocated = Returns None unallocated.
Proof. split; vm_compute; reflexivity. Qed.

(** Both flags are on after each was set to [true]. *)
Lemma map_change_flags_both_enabled :
  ¬ (∀ calls : list setter_call,
       ¬ (bResetOnSparseMapChange_ (configure calls members) = true ∧
          bCloudDeformationOnSparseMapChange_ (configure calls members) = true)).
Proof.
  intros H.
  apply (H [CallSetResetOnMapChange true; CallSetKfAdjustmentOnMapChange true]).
  split; reflexivity.
Qed.

(** A stride of zero is stored as it comes. *)
Lemma downsample_step_zero :
  ¬ (∀ calls : list setter_call, (1 ≤ nDownsampleStep_ (configure calls members))%Z).
Proof.
  intros H. specialize (H [CallSetDownsampleStep 0%Z]). simpl in H. lia.
Qed.

Lemma downsample_step_positive_witness :
  (1 ≤ nDownsampleStep_
         (configure [CallSetDownsampleStep 4%Z; CallSetPerformCarving true;
                     CallSetDownsampleStep 2%Z] members))%Z ∧
  nDownsampleStep_
    (configure [CallSetDownsampleStep 4%Z; CallSetPerformCarving true;
                CallSetDownsampleStep 2%Z] members) = 2%Z.
Proof.
  apply (downsample_step_positive
           [CallSetDownsampleStep 4%Z; CallSetPerformCarving true;
            CallSetDownsampleStep 2%Z] members).
  - simpl. lia.
  - reflexivity.
Defined.

(** The face indices a caller passed in are gone when the call returns. *)
Lemma GetMapWithTimeout_faces_empty_witness :
  ∃ out σ',
    GetMapWithTimeout3 served stale_outputs 50 true busy = Returns out σ' ∧
    faces out = [].
Proof.
  apply (GetMapWithTimeout_faces_empty served stale_outputs 50%Z true busy).
  split; vm_compute; eauto.
Defined.

(** Null from an unallocated map, null from a timed-out call. *)
Lemma null_map_returns_null_witness :
  GetMap starved unallocated
    = Returns None (leave (heap unallocated) (LockedBy 1%nat 0%nat) unallocated) ∧
  GetMapWithTimeout starved 10 unallocated
    = Returns None (leave (heap unallocated) (LockedBy 1%nat 0%nat) unallocated) ∧
  returned (GetMapWithTimeout starved 10 unallocated)
    = returned (GetMapWithTimeout starved 10 busy).
Proof.
  apply (null_map_returns_null starved 10%Z unallocated (LockedBy 1%nat 0%nat)
           (LockedBy 1%nat 0%nat) starved 10%Z busy); reflexivity.
Defined.

(** After the reset of [after_merge] both clouds are there and empty. *)
Lemma ResetPointCloud_idempotent_witness :
  ResetPointCloud (ResetPointCloud after_merge) = ResetPointCloud after_merge ∧
  same_pointers after_merge (ResetPointCloud after_merge) ∧
  lastTimestamp_ (this (ResetPointCloud after_merge)) = 0%N ∧
  (is_Some (stable_cloud (ResetPointCloud after_merge))
     ↔ is_Some (stable_cloud after_merge)) ∧
  (is_Some (unstable_cloud (ResetPointCloud after_merge))
     ↔ is_Some (unstable_cloud after_merge)) ∧
  (∀ c, stable_cloud (ResetPointCloud after_merge) = Some c ∨
        unstable_cloud (ResetPointCloud after_merge) = Some c →
        points c = [] ∧ width c = 0%N ∧ height c = 0%N ∧
        stamp (header c) = 0%N).
Proof. apply (ResetPointCloud_idempotent after_merge). Defined.

(** [after_merge] holds three stable points stamped 5 and one unstable
    point; its reset holds two empty clouds stamped 0. *)
Example reset_empties_both_clouds :
  (length ∘ points <$> stable_cloud after_merge) = Some 3%nat ∧
  map_stamp after_merge = Some 5%N ∧
  (length ∘ points <$> unstable_cloud after_merge) = Some 1%nat ∧
  (points <$> stable_cloud (ResetPointCloud after_merge)) = Some [] ∧
  (points <$> unstable_cloud (ResetPointCloud after_merge)) = Some [] ∧
  map_stamp (ResetPointCloud after_merge) = Some 0%N.
Proof. repeat split; vm_compute; reflexivity. Qed.

End Instances.

(** ** The further properties at work on [PointCloudMap<pcl::PointXYZRGBA>] *)

Section InterfaceInstances.

Import Examples.

(** The snapshot of [mapping] is the one new cloud, at location 3. *)
Lemma GetMap_footprint_witness :
  dom (heap after_GetMap) = allocated_by (Some 3%positive) ∪ dom (heap mapping) ∧
  allocated_by (Some 3%positive) ## dom (heap mapping) ∧
  (∀ l, Some 3%positive = Some l → heap after_GetMap !! l = stable_cloud mapping) ∧
  (∀ l, is_Some (heap mapping !! l) → heap after_GetMap !! l = heap mapping !! l) ∧
  this after_GetMap = with_mutex (pointCloudMutex_ (this after_GetMap)) (this mapping).
Proof.
  apply (GetMap_footprint starved mapping (Some 3%positive) after_GetMap).
  vm_compute. reflexivity.
Defined.

(** The ingestion thread lets go after 30 ms; a reader ready to wait 50 ms
    gets what [GetMap] gets. *)
Lemma GetMapWithTimeout_acquired_witness :
  GetMapWithTimeout served 50 busy = GetMap served busy.
Proof.
  apply (GetMapWithTimeout_acquired served 50 busy (LockedBy 1%nat 0%nat)).
  reflexivity.
Defined.

(** Only variable 10 is written; the stale pointer in variable 11 stays. *)
Lemma GetMapWithTimeout3_without_unstable_witness :
  GetMapWithTimeout3_refs served 10%positive 11%positive 50 false reader_vars
      [3; 1; 2]%N busy
    = outcome_map (λ p, (<[10%positive := p]> reader_vars, []))
        (GetMapWithTimeout served 50 busy).
Proof.
  apply (GetMapWithTimeout3_without_unstable served 10%positive 11%positive 50
           reader_vars [3; 1; 2]%N busy (LockedBy 1%nat 0%nat)).
  reflexivity.
Defined.

(** One variable passed for both outputs: it is written, whatever
    [copyUnstable], and with [copyUnstable] true it ends up with the copy of
    the unstable cloud, the stable copy being overwritten. *)
Example one_variable_for_both_outputs :
  (fst <$> returned (GetMapWithTimeout3_refs served 10%positive 10%positive 50 false
                       reader_vars [] busy))
    = Some (<[10%positive := Some 3%positive]> reader_vars) ∧
  (fst <$> returned (GetMapWithTimeout3_refs served 10%positive 10%positive 50 true
                       reader_vars [] busy))
    = Some (<[10%positive := Some 4%positive]> reader_vars) ∧
  (fst <$> returned (GetMapWithTimeout3_refs served 10%positive 11%positive 50 true
                       reader_vars [] busy))
    = Some (<[11%positive := Some 4%positive]>
              (<[10%positive := Some 3%positive]> reader_vars)).
Proof. split; [|split]; vm_compute; reflexivity. Qed.

Lemma GetMapWithTimeout3_two_copies_witness :
  ∃ l1 l2 vars' σ',
    GetMapWithTimeout3_refs served 10%positive 11%positive 50 true reader_vars
        [3; 1; 2]%N busy
      = Returns (vars', []) σ' ∧
    l1 ≠ l2 ∧ heap busy !! l1 = None ∧ heap busy !! l2 = None ∧
    heap σ' !! l1 = stable_cloud busy ∧ heap σ' !! l2 = unstable_cloud busy ∧
    vars' !! 11%positive = Some (Some l2) ∧
    vars' !! 10%positive
      = Some (Some (if decide (10%positive = 11%positive) then l2 else l1)) ∧
    (∀ r, r ≠ 10%positive → r ≠ 11%positive → vars' !! r = reader_vars !! r).
Proof.
  apply (GetMapWithTimeout3_two_copies served 10%positive 11%positive 50
           reader_vars [3; 1; 2]%N busy (LockedBy 1%nat 0%nat)).
  - reflexivity.
  - vm_compute. eexists. reflexivity.
  - vm_compute. eexists. reflexivity.
Defined.

(** The reader held the mutex twice before its snapshot and holds it twice
    after. *)
Lemma lock_balance_witness :
  held_depth 1%nat (pointCloudMutex_ (this after_reentrant)) = 2%nat ∧
  held_depth (self starved) (pointCloudMutex_ (this after_reentrant))
    = held_depth (self starved) (pointCloudMutex_ (this reentered)).
Proof.
  split; [reflexivity|].
  apply (lock_balance starved DoGetMap reentered after_reentrant).
  vm_compute. reflexivity.
Defined.

Lemma reentrant_call_returns_witness :
  ∃ σ', run_call starved DoGetMapTimestamp reentered = Some σ' ∧
        pointCloudMutex_ (this σ') = pointCloudMutex_ (this reentered).
Proof.
  apply (reentrant_call_returns starved DoGetMapTimestamp reentered).
  - reflexivity.
  - split; vm_compute; eexists; reflexivity.
  - intros _. vm_compute. eexists. reflexivity.
Defined.

Lemma snapshots_never_alias_witness :
  3%positive ≠ 4%positive ∧ is_Some (stable_cloud mapping) ∧
  heap after_GetMap_twice !! 3%positive = stable_cloud mapping ∧
  heap after_GetMap_twice !! 4%positive = stable_cloud mapping.
Proof.
  apply (snapshots_never_alias starved served mapping 3%positive after_GetMap
           4%positive after_GetMap_twice); vm_compute; reflexivity.
Defined.

Lemma snapshot_carries_timestamp_witness :
  ∃ c, heap after_GetMap !! 3%positive = Some c ∧
       GetMapTimestamp served after_GetMap
         = Returns (stamp (header c))
             (leave (heap after_GetMap) (LockedBy 1%nat 0%nat) after_GetMap).
Proof.
  apply (snapshot_carries_timestamp starved served mapping 3%positive after_GetMap
           (LockedBy 1%nat 0%nat)); vm_compute; reflexivity.
Defined.

(** Six calls by two threads, three snapshots among them, and the map is
    what it was. *)
Lemma interface_read_only_witness :
  wf after_session ∧ same_pointers mapping after_session ∧
  stable_cloud after_session = stable_cloud mapping ∧
  unstable_cloud after_session = unstable_cloud mapping ∧
  lastTimestamp_ (this after_session) = lastTimestamp_ (this mapping) ∧
  (∀ l, is_Some (heap mapping !! l) → heap after_session !! l = heap mapping !! l).
Proof.
  apply (interface_read_only session mapping after_session).
  - split; vm_compute; eexists; reflexivity.
  - vm_compute. reflexivity.
Defined.

Lemma setters_commute_witness :
  apply_setter (CallSetDownsampleStep 4) (apply_setter (CallSetPerformCarving true) members)
    = apply_setter (CallSetPerformCarving true) (apply_setter (CallSetDownsampleStep 4) members).
Proof.
  apply (setters_commute (CallSetDownsampleStep 4) (CallSetPerformCarving true) members).
  reflexivity.
Defined.

(** Two virtual setters write no member at all, and commute. *)
Example virtual_setters_commute :
  write_same_member (CallSetIntProperty 3 7) (CallSetBoolProperty 1 true) = false ∧
  write_same_member (CallSetDownsampleStep 4) (CallSetDownsampleStep 0) = true.
Proof. split; reflexivity. Qed.

Lemma setter_overwrites_witness :
  apply_setter (CallSetDownsampleStep 4) (apply_setter (CallSetDownsampleStep 0) members)
    = apply_setter (CallSetDownsampleStep 4) members.
Proof.
  apply (setter_overwrites (CallSetDownsampleStep 4) (CallSetDownsampleStep 0) members).
  reflexivity.
Defined.

(** Waiting 50 ms is enough for the reader; waiting 80 ms gives the same. *)
Lemma longer_timeout_same_result_witness :
  GetMapWithTimeout served 80 busy = GetMapWithTimeout served 50 busy ∧
  GetMapWithTimeout3 served stale_outputs 80 true busy
    = GetMapWithTimeout3 served stale_outputs 50 true busy.
Proof.
  apply (longer_timeout_same_result served 50 80 stale_outputs true busy
           (LockedBy 1%nat 0%nat)).
  - lia.
  - reflexivity.
  - reflexivity.
  - reflexivity.
Defined.

(** The longest timeout there is wraps to a deadline in the past: the reader
    who gets the map by waiting 50 ms gets nothing by waiting for ever. *)
Example longest_timeout_gives_up :
  representable served 9223372036854775807 = false ∧
  returned (GetMapWithTimeout served 9223372036854775807 busy) = Some None ∧
  returned (GetMapWithTimeout served 50 busy) = Some (Some 3%positive).
Proof. split; [|split]; vm_compute; reflexivity. Qed.

End InterfaceInstances.
